(** * Kao: the query resolution and selection engine of the kaomoji picker

    A shallow embedding of the reactive script of the picker page
    (the [<script lang="ts">] block) and of [src/lib/Types.ts], with the
    properties of its catalog, query parser, ranker, selection cursor,
    recency list and copy logic.

    JavaScript strings are sequences of UTF-16 code units; they are modelled
    as [list N].  Numbers that the script uses as indices are modelled as
    [Z], because [ArrowLeft] computes [SelectedIndex - 1] before it wraps. *)

From Stdlib Require Import ZArith NArith Lia Ascii String.
From stdpp Require Import base decidable option list gmap.

Local Open Scope N_scope.

(** ** JavaScript strings *)

Module JS.

(** A string literal of the source, as code units (ASCII only). *)
Definition js (s : string) : list N :=
  N_of_ascii <$> list_ascii_of_string s.

(** [WhiteSpace] and [LineTerminator] of ECMAScript: what [\s] matches and
    what [String.prototype.trim] strips. *)
Definition is_ws (c : N) : bool :=
  (c =? 9) || (c =? 10) || (c =? 11) || (c =? 12) || (c =? 13) || (c =? 32)
  || (c =? 160) || (c =? 5760) || ((8192 <=? c) && (c <=? 8202))
  || (c =? 8232) || (c =? 8233) || (c =? 8239) || (c =? 8287)
  || (c =? 12288) || (c =? 65279).

Fixpoint trimStart (s : list N) : list N :=
  match s with
  | c :: s' => if is_ws c then trimStart s' else s
  | [] => []
  end.

Definition trimEnd (s : list N) : list N := reverse (trimStart (reverse s)).

Definition trim (s : list N) : list N := trimEnd (trimStart s).

Fixpoint startsWith (pat s : list N) : bool :=
  match pat, s with
  | [], _ => true
  | p :: pat', c :: s' => (p =? c) && startsWith pat' s'
  | _ :: _, [] => false
  end.

(** [s.replace(pat, "")] with a string pattern: the first occurrence of
    [pat] is removed, the rest of [s] is kept. *)
Fixpoint replace_first (pat s : list N) {struct s} : list N :=
  if startsWith pat s then drop (length pat) s
  else match s with
       | [] => []
       | c :: s' => c :: replace_first pat s'
       end.

(** The maximal run of characters satisfying [p] at the head of [s]. *)
Fixpoint take_while (p : N → bool) (s : list N) : list N :=
  match s with
  | c :: s' => if p c then c :: take_while p s' else []
  | [] => []
  end.

(** [s.split(",")]: never empty, one more piece than separators. *)
Fixpoint split (sep : N) (s : list N) : list (list N) :=
  match s with
  | [] => [[]]
  | c :: s' =>
      if c =? sep then [] :: split sep s'
      else match split sep s' with
           | piece :: pieces => (c :: piece) :: pieces
           | [] => [[c]]
           end
  end.

Definition is_ascii (c : N) : bool := c <? 128.

Definition ascii_lower (c : N) : N :=
  if (65 <=? c) && (c <=? 90) then c + 32 else c.

Definition ascii_alnum (c : N) : bool :=
  ((48 <=? c) && (c <=? 57)) || ((65 <=? c) && (c <=? 90))
  || ((97 <=? c) && (c <=? 122)).

Definition is_high_surrogate (c : N) : bool := (55296 <=? c) && (c <=? 56319).
Definition is_low_surrogate (c : N) : bool := (56320 <=? c) && (c <=? 57343).
Definition code_point (hi lo : N) : N :=
  65536 + (hi - 55296) * 1024 + (lo - 56320).

End JS.
Import JS.

(** ** Data model ([src/lib/Types.ts]) *)

Record KaomojiEntry := {
  Character : list N;
  Tags : list (list N);
  Category : list N;
}.

#[global] Instance KaomojiEntry_eq_dec : EqDecision KaomojiEntry.
Proof. solve_decision. Defined.

(** A match object of [tokenRegex]: [match[0]], [match[1]], [match[2]]. *)
Record RegExpMatch := {
  fullMatch : list N;
  type : list N;
  value : list N;
}.

(** ** The token regular expression [/(?:^|\s)(cat|tag):([^\s]+)/g] *)

Module TokenRegex.

(** [(cat|tag):([^\s]+)] tried at the head of [s]; [lead] is what the
    group [(?:^|\s)] consumed. *)
Definition match_body (lead s : list N) : option RegExpMatch :=
  let attempt (kw : list N) :=
    if startsWith (kw ++ js ":") s then
      match take_while (λ c, negb (is_ws c)) (drop (length kw + 1) s) with
      | [] => None
      | v => Some {| fullMatch := lead ++ kw ++ js ":" ++ v;
                     type := kw; value := v |}
      end
    else None in
  match attempt (js "cat") with
  | Some m => Some m
  | None => attempt (js "tag")
  end.

(** One attempt of the whole pattern at index [p], where [s] is the subject
    from [p] on.  [^] holds at index 0 only (no [m] flag). *)
Definition match_here (p : nat) (s : list N) : option RegExpMatch :=
  match (if decide (p = 0%nat) then match_body [] s else None) with
  | Some m => Some m
  | None =>
      match s with
      | c :: s' => if is_ws c then match_body [c] s' else None
      | [] => None
      end
  end.

(** The leftmost match at or after index [p]; with it, the new [lastIndex]. *)
Fixpoint search_from (p : nat) (s : list N) : option (RegExpMatch * nat) :=
  match match_here p s with
  | Some m => Some (m, (p + length (fullMatch m))%nat)
  | None =>
      match s with
      | [] => None
      | _ :: s' => search_from (S p) s'
      end
  end.

(** [tokenRegex.exec(query)] with the regex's [lastIndex] made explicit. *)
Definition exec (query : list N) (lastIndex : nat) : option (RegExpMatch * nat) :=
  if decide (length query < lastIndex)%nat then None
  else search_from lastIndex (drop lastIndex query).

End TokenRegex.

(** ** External collaborators

    What the script takes from its platform and cannot be read off its own
    text: the Unicode tables of the JavaScript engine beyond ASCII, and the
    Fuse.js search [new Fuse(list, FuseOptions).search(q).map(r => r.item)]. *)

Class Platform := {
  (** [\p{L}] or [\p{N}] for a code point outside ASCII *)
  unicode_LN : N → bool;
  (** [String.prototype.toLowerCase] for a string that is not pure ASCII *)
  unicode_toLowerCase : list N → list N;
  (** Fuse.js with the script's [FuseOptions] *)
  fuse_search : list KaomojiEntry → list N → list KaomojiEntry;
}.

(** ** Application state: the [$state] runes of the script *)

Record AppState := {
  KaomojiList : list KaomojiEntry;
  RecentKaomojis : list KaomojiEntry;
  SearchQuery : list N;
  LastCopied : list N;
  LastCopiedIndex : Z;
  ShowToast : bool;
  ShowAddModal : bool;
  SelectedIndex : Z;
  GridCols : Z;
  NewCharacter : list N;
  NewTags : list N;
  NewCategory : list N;
}.

Definition set_KaomojiList (v : list KaomojiEntry) (st : AppState) : AppState :=
  {| KaomojiList := v; RecentKaomojis := RecentKaomojis st;
     SearchQuery := SearchQuery st; LastCopied := LastCopied st;
     LastCopiedIndex := LastCopiedIndex st; ShowToast := ShowToast st;
     ShowAddModal := ShowAddModal st; SelectedIndex := SelectedIndex st;
     GridCols := GridCols st; NewCharacter := NewCharacter st;
     NewTags := NewTags st; NewCategory := NewCategory st |}.

Definition set_RecentKaomojis (v : list KaomojiEntry) (st : AppState) : AppState :=
  {| KaomojiList := KaomojiList st; RecentKaomojis := v;
     SearchQuery := SearchQuery st; LastCopied := LastCopied st;
     LastCopiedIndex := LastCopiedIndex st; ShowToast := ShowToast st;
     ShowAddModal := ShowAddModal st; SelectedIndex := SelectedIndex st;
     GridCols := GridCols st; NewCharacter := NewCharacter st;
     NewTags := NewTags st; NewCategory := NewCategory st |}.

Definition set_SearchQuery (v : list N) (st : AppState) : AppState :=
  {| KaomojiList := KaomojiList st; RecentKaomojis := RecentKaomojis st;
     SearchQuery := v; LastCopied := LastCopied st;
     LastCopiedIndex := LastCopiedIndex st; ShowToast := ShowToast st;
     ShowAddModal := ShowAddModal st; SelectedIndex := SelectedIndex st;
     GridCols := GridCols st; NewCharacter := NewCharacter st;
     NewTags := NewTags st; NewCategory := NewCategory st |}.

Definition set_ShowAddModal (v : bool) (st : AppState) : AppState :=
  {| KaomojiList := KaomojiList st; RecentKaomojis := RecentKaomojis st;
     SearchQuery := SearchQuery st; LastCopied := LastCopied st;
     LastCopiedIndex := LastCopiedIndex st; ShowToast := ShowToast st;
     ShowAddModal := v; SelectedIndex := SelectedIndex st;
     GridCols := GridCols st; NewCharacter := NewCharacter st;
     NewTags := NewTags st; NewCategory := NewCategory st |}.

Definition set_SelectedIndex (v : Z) (st : AppState) : AppState :=
  {| KaomojiList := KaomojiList st; RecentKaomojis := RecentKaomojis st;
     SearchQuery := SearchQuery st; LastCopied := LastCopied st;
     LastCopiedIndex := LastCopiedIndex st; ShowToast := ShowToast st;
     ShowAddModal := ShowAddModal st; SelectedIndex := v;
     GridCols := GridCols st; NewCharacter := NewCharacter st;
     NewTags := NewTags st; NewCategory := NewCategory st |}.

Definition set_CopyFeedback (character : list N) (index : Z) (toast : bool)
    (st : AppState) : AppState :=
  {| KaomojiList := KaomojiList st; RecentKaomojis := RecentKaomojis st;
     SearchQuery := SearchQuery st; LastCopied := character;
     LastCopiedIndex := index; ShowToast := toast;
     ShowAddModal := ShowAddModal st; SelectedIndex := SelectedIndex st;
     GridCols := GridCols st; NewCharacter := NewCharacter st;
     NewTags := NewTags st; NewCategory := NewCategory st |}.

Definition set_GridCols (v : Z) (st : AppState) : AppState :=
  {| KaomojiList := KaomojiList st; RecentKaomojis := RecentKaomojis st;
     SearchQuery := SearchQuery st; LastCopied := LastCopied st;
     LastCopiedIndex := LastCopiedIndex st; ShowToast := ShowToast st;
     ShowAddModal := ShowAddModal st; SelectedIndex := SelectedIndex st;
     GridCols := v; NewCharacter := NewCharacter st;
     NewTags := NewTags st; NewCategory := NewCategory st |}.

(** The three assignments that follow a successful save: the new catalog,
    the form reset and the closing of the modal. *)
Definition set_Saved (v : list KaomojiEntry) (st : AppState) : AppState :=
  {| KaomojiList := v; RecentKaomojis := RecentKaomojis st;
     SearchQuery := SearchQuery st; LastCopied := LastCopied st;
     LastCopiedIndex := LastCopiedIndex st; ShowToast := ShowToast st;
     ShowAddModal := false; SelectedIndex := SelectedIndex st;
     GridCols := GridCols st; NewCharacter := [];
     NewTags := []; NewCategory := NewCategory st |}.

(** ** Effects on the outside world, in the order the script issues them *)

Inductive Effect :=
  | InvokeCopyToClipboard (text : list N)
  | NavigatorWriteText (text : list N)
  | InvokeSaveKaomoji (newEntry : KaomojiEntry)
  | InvokeLoadUserKaomojis
  | ConsoleWarn (msg : list N)
  | ConsoleError (msg : list N)
  | ToastTimer
  | ScrollToSelected
  | PreventDefault.

#[global] Instance Effect_eq_dec : EqDecision Effect.
Proof. solve_decision. Defined.

(** The outcome of an awaited [invoke]: the promise resolves or rejects. *)
Inductive InvokeResult (A : Type) :=
  | Resolved (a : A)
  | Rejected.
Arguments Resolved {A} a.
Arguments Rejected {A}.

(** What [HandleKeyDown] reads of its event: [event.key] and the tag name
    of [event.target], if there is a target. *)
Record KeyboardEvent := {
  key : list N;
  target : option (list N);
}.

(** [arr[i]] for a number [i]: [undefined] outside the array. *)
Definition index_at {A : Type} (arr : list A) (i : Z) : option A :=
  if (i <? 0)%Z then None else arr !! Z.to_nat i.

Section Picker.
Context `{Platform}.

(** ** Query parsing and ranking: [FilteredResults] *)

(** Membership in the class [[\p{L}\p{N}_-]]. *)
Definition keep_code_point (cp : N) : bool :=
  (if is_ascii cp then ascii_alnum cp else unicode_LN cp)
  || (cp =? 95) || (cp =? 45).

(** [value.replace(/[^\p{L}\p{N}_-]/gu, "")].  The [u] flag makes the
    regex read a surrogate pair as one code point. *)
Fixpoint sanitize (s : list N) : list N :=
  match s with
  | [] => []
  | c :: s' =>
      match s' with
      | d :: s'' =>
          if is_high_surrogate c && is_low_surrogate d then
            if keep_code_point (code_point c d) then c :: d :: sanitize s''
            else sanitize s''
          else
            if keep_code_point c then c :: sanitize s' else sanitize s'
      | [] => if keep_code_point c then [c] else []
      end
  end.

Definition toLowerCase (s : list N) : list N :=
  if forallb is_ascii s then ascii_lower <$> s else unicode_toLowerCase s.

(** The three variables the [while] loop updates. *)
Record LoopState := {
  hasTokens : bool;
  filtered : list KaomojiEntry;
  remainingQuery : list N;
}.

Definition sanitizedValue (m : RegExpMatch) : list N :=
  toLowerCase (sanitize (value m)).

(** One iteration of the loop body. *)
Definition loop_body (m : RegExpMatch) (ls : LoopState) : LoopState :=
  {| hasTokens := true;
     filtered :=
       if decide (type m = js "cat") then
         filter (λ k, toLowerCase (Category k) = sanitizedValue m) (filtered ls)
       else if decide (type m = js "tag") then
         filter (λ k, Exists (λ t, toLowerCase t = sanitizedValue m) (Tags k))
                (filtered ls)
       else filtered ls;
     remainingQuery := trim (replace_first (fullMatch m) (remainingQuery ls)) |}.

(** [while ((match = tokenRegex.exec(query)) !== null) { ... }] *)
Fixpoint token_loop (fuel : nat) (query : list N) (lastIndex : nat)
    (ls : LoopState) : LoopState :=
  match fuel with
  | O => ls
  | S fuel' =>
      match TokenRegex.exec query lastIndex with
      | None => ls
      | Some (m, lastIndex') => token_loop fuel' query lastIndex' (loop_body m ls)
      end
  end.

(** The loop state when the loop is left, for the trimmed [query]. *)
Definition parse_and_filter_from (ls : LoopState) (query : list N) : LoopState :=
  token_loop (S (length query)) query 0 ls.

Definition parse_and_filter (catalog : list KaomojiEntry) (query : list N)
    : LoopState :=
  parse_and_filter_from
    {| hasTokens := false; filtered := catalog; remainingQuery := query |}
    query.

Definition FilteredResults (st : AppState) : list KaomojiEntry :=
  let query := trim (SearchQuery st) in
  if decide (query = []) then KaomojiList st
  else
    let ls := parse_and_filter (KaomojiList st) query in
    if hasTokens ls then
      if decide (0 < length (remainingQuery ls))%nat then
        fuse_search (filtered ls) (remainingQuery ls)
      else filtered ls
    else fuse_search (KaomojiList st) query.

(** ** The [$effect] that keeps [SelectedIndex] in range *)

Definition SelectedIndex_clamp_effect (st : AppState) : AppState :=
  let count := Z.of_nat (length (FilteredResults st)) in
  if (count =? 0)%Z then set_SelectedIndex 0 st
  else if (SelectedIndex st >=? count)%Z then set_SelectedIndex (count - 1) st
  else st.

(** ** Layout: [RecomputeCols]

    [measured] is [Math.floor((width + gap) / (minCard + gap))] as read from
    the grid element, [None] while [GridEl] is not bound. *)

Definition RecomputeCols (measured : option Z) (st : AppState) : AppState :=
  match measured with
  | None => st
  | Some cols => set_GridCols (Z.max 1 cols) st
  end.

(** ** Start-up merge of the user's entries: the [async] block of [onMount] *)

Definition merge_user_items (catalog userItems : list KaomojiEntry)
    : list KaomojiEntry :=
  let existingChars : gset (list N) := list_to_set (Character <$> catalog) in
  let uniqueUserItems := filter (λ k, Character k ∉ existingChars) userItems in
  catalog ++ uniqueUserItems.

Definition onMount (loaded : InvokeResult (list KaomojiEntry))
    (measured : option Z) (st : AppState) : AppState * list Effect :=
  let '(st1, log) :=
    match loaded with
    | Resolved userItems =>
        if decide (0 < length userItems)%nat then
          (set_KaomojiList (merge_user_items (KaomojiList st) userItems) st,
           [InvokeLoadUserKaomojis])
        else (st, [InvokeLoadUserKaomojis])
    | Rejected =>
        (st, [InvokeLoadUserKaomojis;
              ConsoleError (js "Failed to load user kaomojis")])
    end in
  (RecomputeCols measured st1, log).

(** ** Recency list and copy *)

Definition AddToRecents (entry : KaomojiEntry) (st : AppState) : AppState :=
  set_RecentKaomojis
    (take 8 (entry :: filter (λ k, Character k ≠ Character entry)
                             (RecentKaomojis st))) st.

(** The synchronous part of [HandleCopySuccess]; the toast is shown and
    hidden again by the timer it starts. *)
Definition HandleCopySuccess (character : list N) (index : Z) (st : AppState)
    : AppState * list Effect :=
  (set_CopyFeedback character index false st, [ToastTimer]).

(** [native_ok] and [navigator_ok] say whether the two clipboard writes
    would resolve. *)
Definition CopyToClipboard (native_ok navigator_ok : bool)
    (character : list N) (index : Z) (st : AppState) : AppState * list Effect :=
  let '(successState, log1) :=
    if native_ok then (true, [InvokeCopyToClipboard character])
    else (false, [InvokeCopyToClipboard character;
                  ConsoleWarn (js "Native copy failed, trying fallback...")]) in
  let '(successState, log2) :=
    if negb successState then
      if navigator_ok then (true, [NavigatorWriteText character])
      else (successState, [NavigatorWriteText character;
                           ConsoleWarn (js "Navigator copy failed")])
    else (successState, []) in
  if successState then
    let st1 :=
      match list_find (λ k, Character k = character) (KaomojiList st) with
      | Some (_, entry) => AddToRecents entry st
      | None => st
      end in
    let '(st2, log3) := HandleCopySuccess character index st1 in
    (st2, log1 ++ log2 ++ log3)
  else (st, log1 ++ log2).

(** ** Add or edit an entry: [SubmitNewKaomoji] *)

(** The block under [IMMUTABLE UPSERT STRATEGY]. *)
Definition upsert (catalog : list KaomojiEntry) (entry : KaomojiEntry)
    : list KaomojiEntry :=
  match list_find (λ k, Character k = Character entry) catalog with
  | Some (index, _) => take index catalog ++ [entry] ++ drop (index + 1) catalog
  | None => catalog ++ [entry]
  end.

Definition form_entry (st : AppState) : KaomojiEntry :=
  {| Character := trim (NewCharacter st);
     Tags := filter (λ t, t ≠ []) (trim <$> split 44 (NewTags st));
     Category := NewCategory st |}.

Definition SubmitNewKaomoji (saved : InvokeResult unit) (st : AppState)
    : AppState * list Effect :=
  if decide (trim (NewCharacter st) = []) then (st, [])
  else
    let entry := form_entry st in
    match saved with
    | Resolved _ =>
        (set_Saved (upsert (KaomojiList st) entry) st, [InvokeSaveKaomoji entry])
    | Rejected =>
        (st, [InvokeSaveKaomoji entry;
              ConsoleError (js "Failed to save kaomoji")])
    end.

(** ** Keyboard navigation: [HandleKeyDown]

    The script computes with JavaScript numbers.  [Z] agrees with them on
    the integers below 2^53, which is where a cursor within a result
    list lies; statements about the arithmetic of the arrow keys bound
    the cursor by the length of the result list. *)

Definition navKeys : list (list N) :=
  [js "ArrowRight"; js "ArrowLeft"; js "ArrowDown"; js "ArrowUp"].

Definition handledKeys : list (list N) := navKeys ++ [js "Enter"; js "Escape"].

Definition isTyping (event : KeyboardEvent) : bool :=
  match target event with
  | Some tagName =>
      bool_decide (tagName = js "INPUT") || bool_decide (tagName = js "TEXTAREA")
  | None => false
  end.

Definition HandleKeyDown (native_ok navigator_ok : bool)
    (event : KeyboardEvent) (st : AppState) : AppState * list Effect :=
  if ShowAddModal st then
    if decide (key event = js "Escape") then (set_ShowAddModal false st, [])
    else (st, [])
  else if isTyping event && bool_decide (key event ∈ navKeys) then (st, [])
  else
    let log0 :=
      if bool_decide (key event ∈ handledKeys) then [PreventDefault] else [] in
    let itemsCount := Z.of_nat (length (FilteredResults st)) in
    if (itemsCount =? 0)%Z then (st, log0)
    else if decide (key event = js "ArrowRight") then
      (set_SelectedIndex (Z.rem (SelectedIndex st + 1) itemsCount) st,
       log0 ++ [ScrollToSelected])
    else if decide (key event = js "ArrowLeft") then
      (set_SelectedIndex (Z.rem (SelectedIndex st - 1 + itemsCount) itemsCount) st,
       log0 ++ [ScrollToSelected])
    else if decide (key event = js "ArrowDown") then
      (set_SelectedIndex
         (Z.min (SelectedIndex st + GridCols st) (itemsCount - 1)) st,
       log0 ++ [ScrollToSelected])
    else if decide (key event = js "ArrowUp") then
      (set_SelectedIndex (Z.max (SelectedIndex st - GridCols st) 0) st,
       log0 ++ [ScrollToSelected])
    else if decide (key event = js "Enter") then
      match index_at (FilteredResults st) (SelectedIndex st) with
      | Some item =>
          let '(st', log) :=
            CopyToClipboard native_ok navigator_ok (Character item)
                            (SelectedIndex st) st in
          (st', log0 ++ log)
      | None => (st, log0)
      end
    else if decide (key event = js "Escape") then
      (set_SearchQuery [] st, log0)
    else (st, log0).

(** The [onclick] of a result card and of a recents button. *)
Definition click_card (native_ok navigator_ok : bool) (i : nat)
    (st : AppState) : AppState * list Effect :=
  match FilteredResults st !! i with
  | Some item =>
      CopyToClipboard native_ok navigator_ok (Character item) (Z.of_nat i)
                      (set_SelectedIndex (Z.of_nat i) st)
  | None => (st, [])
  end.

Definition click_recent (native_ok navigator_ok : bool) (i : nat)
    (st : AppState) : AppState * list Effect :=
  match RecentKaomojis st !! i with
  | Some recent =>
      CopyToClipboard native_ok navigator_ok (Character recent) (-1) st
  | None => (st, [])
  end.

End Picker.

(** ** Concrete data for examples *)

(** A platform for closed examples: no letters beyond ASCII, no case
    mapping beyond ASCII, and a Fuse that keeps every candidate in order. *)
Definition example_platform : Platform :=
  {| unicode_LN := λ _, false;
     unicode_toLowerCase := λ s, s;
     fuse_search := λ candidates _, candidates |}.

(** A platform whose Fuse finds nothing. *)
Definition strict_platform : Platform :=
  {| unicode_LN := λ _, false;
     unicode_toLowerCase := λ s, s;
     fuse_search := λ _ _, [] |}.

Definition happy : KaomojiEntry :=
  {| Character := js "(^_^)"; Tags := [js "happy"; js "smile"];
     Category := js "Joy" |}.

Definition crying : KaomojiEntry :=
  {| Character := js "(T_T)"; Tags := [js "sad"]; Category := js "Sadness" |}.

Definition smooch : KaomojiEntry :=
  {| Character := js "(*3*)"; Tags := [js "kiss"; js "blush"];
     Category := js "Love" |}.

Definition initial_state (catalog : list KaomojiEntry) : AppState :=
  {| KaomojiList := catalog; RecentKaomojis := []; SearchQuery := [];
     LastCopied := []; LastCopiedIndex := -1; ShowToast := false;
     ShowAddModal := false; SelectedIndex := 0; GridCols := 3;
     NewCharacter := []; NewTags := []; NewCategory := js "Joy" |}.

(** [crying] edited in the form: same glyph, other tags. *)
Definition crying_edited : KaomojiEntry :=
  {| Character := js "(T_T)"; Tags := [js "tears"; js "sob"];
     Category := js "Sadness" |}.

Definition three_entries : list KaomojiEntry := [happy; crying; smooch].

(** Three results, cursor left at 7 by a longer result list. *)
Definition cursor_past_end : AppState :=
  set_SelectedIndex 7 (initial_state three_entries).

(** Three results, cursor on the last one. *)
Definition cursor_on_last : AppState :=
  set_SelectedIndex 2 (initial_state three_entries).

(** A query that finds nothing under [strict_platform]. *)
Definition no_results : AppState :=
  set_SearchQuery (js "zzz") (initial_state three_entries).

(** No results, and the add modal open. *)
Definition no_results_modal_open : AppState :=
  set_ShowAddModal true no_results.

Definition press (k : string) : KeyboardEvent :=
  {| key := js k; target := None |}.

(** The recency list after copying the entries [es] in turn. *)
Definition recents_after (es : list KaomojiEntry) (st : AppState) : AppState :=
  foldl (λ s e, AddToRecents e s) st es.

(** ** Notions used in the statements *)



Section Parsing.
Context `{Platform}.

(** The matches that the [while] loop of [FilteredResults] goes through. *)
Fixpoint exec_all (fuel : nat) (query : list N) (lastIndex : nat)
    : list RegExpMatch :=
  match fuel with
  | O => []
  | S fuel' =>
      match TokenRegex.exec query lastIndex with
      | None => []
      | Some (m, lastIndex') => m :: exec_all fuel' query lastIndex'
      end
  end.

Definition query_tokens (query : list N) : list RegExpMatch :=
  exec_all (S (length query)) query 0.

(** The predicate that the loop body applies for one match. *)
Definition token_holds (m : RegExpMatch) (k : KaomojiEntry) : Prop :=
  if decide (type m = js "cat") then
    toLowerCase (Category k) = sanitizedValue m
  else if decide (type m = js "tag") then
    Exists (λ t, toLowerCase t = sanitizedValue m) (Tags k)
  else True.

#[global] Instance token_holds_dec m k : Decision (token_holds m k).
Proof. unfold token_holds. repeat case_decide; apply _. Defined.

End Parsing.

(** The residual in the words of the specification: every matched token,
    with its leading whitespace, is cut out of the raw query where it
    stands, and what is left is trimmed.  [skip] counts the characters of
    the current match that are still to be dropped. *)
Fixpoint strip_tokens (p skip : nat) (s : list N) : list N :=
  match s with
  | [] => []
  | c :: s' =>
      match skip with
      | S n => strip_tokens (S p) n s'
      | O =>
          match TokenRegex.match_here p s with
          | Some m => strip_tokens (S p) (length (fullMatch m) - 1) s'
          | None => c :: strip_tokens (S p) 0 s'
          end
      end
  end.

Definition spec_residual (raw : list N) : list N :=
  trim (strip_tokens 0 0 raw).

(** What a match of [tokenRegex] looks like: the kind is [cat] or [tag],
    the value is a non-empty run without whitespace, and the whole match is
    the kind, the colon and the value, after at most one whitespace
    character. *)
Definition well_formed_token (m : RegExpMatch) : Prop :=
  (type m = js "cat" ∨ type m = js "tag")
  ∧ value m ≠ []
  ∧ Forall (λ c, is_ws c = false) (value m)
  ∧ ∃ lead, fullMatch m = lead ++ type m ++ js ":" ++ value m
            ∧ (lead = [] ∨ ∃ c, lead = [c] ∧ is_ws c = true).

(** The text of a clipboard write, primary or fallback. *)
Definition clipboard_text (e : Effect) : option (list N) :=
  match e with
  | InvokeCopyToClipboard text | NavigatorWriteText text => Some text
  | _ => None
  end.

(** ** The page as a transition system

    One constructor for each way the page changes its state: the window's
    [onkeydown], the [onclick] of a result card and of a recents button,
    [SubmitNewKaomoji] (the Save button, or Enter in the form), the
    [async] block of [onMount], the resize observer, the clamp [$effect],
    the [bind:value] of the search box and of the form fields, the buttons
    and the overlay that open and close the modal, and the two callbacks
    of the timer that [HandleCopySuccess] starts. *)

Definition set_Form (character tags category : list N) (st : AppState)
    : AppState :=
  {| KaomojiList := KaomojiList st; RecentKaomojis := RecentKaomojis st;
     SearchQuery := SearchQuery st; LastCopied := LastCopied st;
     LastCopiedIndex := LastCopiedIndex st; ShowToast := ShowToast st;
     ShowAddModal := ShowAddModal st; SelectedIndex := SelectedIndex st;
     GridCols := GridCols st; NewCharacter := character;
     NewTags := tags; NewCategory := category |}.

Inductive Action :=
  | KeyDown (native_ok navigator_ok : bool) (event : KeyboardEvent)
  | ClickCard (native_ok navigator_ok : bool) (i : nat)
  | ClickRecent (native_ok navigator_ok : bool) (i : nat)
  | Submit (saved : InvokeResult unit)
  | Mounted (loaded : InvokeResult (list KaomojiEntry)) (measured : option Z)
  | Resized (measured : option Z)
  | ClampEffect
  | TypeQuery (query : list N)
  | EditForm (character tags category : list N)
  | SetModal (shown : bool)
  | ToastTick
  | ToastTimeout.

Section Session.
Context `{Platform}.

Definition step (a : Action) (st : AppState) : AppState :=
  match a with
  | KeyDown native_ok navigator_ok event =>
      (HandleKeyDown native_ok navigator_ok event st).1
  | ClickCard native_ok navigator_ok i =>
      (click_card native_ok navigator_ok i st).1
  | ClickRecent native_ok navigator_ok i =>
      (click_recent native_ok navigator_ok i st).1
  | Submit saved => (SubmitNewKaomoji saved st).1
  | Mounted loaded measured => (onMount loaded measured st).1
  | Resized measured => RecomputeCols measured st
  | ClampEffect => SelectedIndex_clamp_effect st
  | TypeQuery query => set_SearchQuery query st
  | EditForm character tags category => set_Form character tags category st
  | SetModal shown => set_ShowAddModal shown st
  | ToastTick => set_CopyFeedback (LastCopied st) (LastCopiedIndex st) true st
  | ToastTimeout => set_CopyFeedback (LastCopied st) (-1) false st
  end.

Definition run (actions : list Action) (st : AppState) : AppState :=
  foldl (λ s a, step a s) st actions.

End Session.

(** What holds of the state throughout a session. *)
Definition session_invariant (st : AppState) : Prop :=
  NoDup (Character <$> RecentKaomojis st)
  ∧ (length (RecentKaomojis st) ≤ 8)%nat
  ∧ (∀ g, g ∈ Character <$> RecentKaomojis st →
          g ∈ Character <$> KaomojiList st)
  ∧ (0 ≤ SelectedIndex st)%Z
  ∧ (1 ≤ GridCols st)%Z
  ∧ (-1 ≤ LastCopiedIndex st)%Z.

(** Further states and events for closed examples. *)
Definition with_query (q : string) : AppState :=
  set_SearchQuery (js q) (initial_state three_entries).

Definition cursor_on_second : AppState :=
  set_SelectedIndex 1 (initial_state three_entries).

Definition press_in_input (k : string) : KeyboardEvent :=
  {| key := js k; target := Some (js "INPUT") |}.

Definition form_filled : AppState :=
  set_Form (js " (o_o) ") (js "wow, , surprised ,") (js "Joy")
           (set_ShowAddModal true (initial_state three_entries)).

Definition glyph_entry (n : N) : KaomojiEntry :=
  {| Character := [n]; Tags := []; Category := [] |}.

Definition eight_recents : AppState :=
  set_RecentKaomojis (glyph_entry <$> [1; 2; 3; 4; 5; 6; 7; 8])
                     (initial_state three_entries).

(** A short session: a copy by Enter, then a click on the second card. *)
Definition two_copies : list Action :=
  [KeyDown true true (press "Enter"); ClickCard false true 1].

(** * Properties *)

Section Properties.
Context `{Platform}.

(** ** Query parsing and ranking *)

Lemma startsWith_app (pat s : list N) :
  startsWith pat s = true → s = pat ++ drop (length pat) s.
Proof.
  revert s. induction pat as [|p pat IH]; intros [|c s]; cbn; try done.
  intros [Hpc Hrest]%andb_prop. apply N.eqb_eq in Hpc as ->.
  f_equal. by apply IH.
Qed.

Lemma take_while_prefix (p : N → bool) (s : list N) :
  take_while p s `prefix_of` s.
Proof.
  induction s as [|c s IH]; cbn; [done|].
  destruct (p c); [by apply prefix_cons|apply prefix_nil].
Qed.

Lemma match_body_prefix (lead s : list N) (m : RegExpMatch) :
  TokenRegex.match_body lead s = Some m →
  fullMatch m `prefix_of` lead ++ s ∧ (0 < length (fullMatch m))%nat.
Proof.
  unfold TokenRegex.match_body.
  assert (∀ kw : list N, (0 < length kw)%nat →
    (if startsWith (kw ++ js ":") s
     then match take_while (λ c, negb (is_ws c)) (drop (length kw + 1) s) with
          | [] => None
          | v => Some {| fullMatch := lead ++ kw ++ js ":" ++ v;
                         type := kw; value := v |}
          end
     else None) = Some m →
    fullMatch m `prefix_of` lead ++ s ∧ (0 < length (fullMatch m))%nat)
    as Hattempt.
  { intros kw Hkw. destruct (startsWith (kw ++ js ":") s) eqn:Hstart; [|done].
    apply startsWith_app in Hstart. rewrite length_app in Hstart.
    change (length (js ":")) with 1%nat in Hstart.
    pose proof (take_while_prefix (λ c, negb (is_ws c))
                  (drop (length kw + 1) s)) as Hpre.
    destruct (take_while _ _) as [|v0 v] eqn:Hv; [done|].
    intros [= <-]. cbn [fullMatch]. split.
    - apply prefix_app. destruct Hpre as [rest Hrest]. exists rest.
      rewrite Hstart, Hrest. by rewrite <- !(assoc_L (++)).
    - rewrite !length_app. lia. }
  destruct (startsWith (js "cat" ++ js ":") s) eqn:Hcat.
  - destruct (take_while _ (drop (length (js "cat") + 1) s)) eqn:Hv.
    + intros Htag. apply (Hattempt (js "tag")); [cbn; lia|done].
    + intros Hm. apply (Hattempt (js "cat")); [cbn; lia|].
      by rewrite Hcat, Hv.
  - intros Htag. apply (Hattempt (js "tag")); [cbn; lia|done].
Qed.

Lemma match_here_prefix (p : nat) (s : list N) (m : RegExpMatch) :
  TokenRegex.match_here p s = Some m →
  fullMatch m `prefix_of` s ∧ (0 < length (fullMatch m))%nat.
Proof.
  unfold TokenRegex.match_here.
  destruct (if decide (p = 0%nat) then TokenRegex.match_body [] s else None)
    as [m'|] eqn:Hanchored.
  - intros [= ->]. destruct (decide (p = 0%nat)); [|done].
    by apply match_body_prefix in Hanchored.
  - destruct s as [|c s]; [done|]. destruct (is_ws c); [|done].
    intros Hm. by apply match_body_prefix in Hm.
Qed.

Lemma search_from_bounds (p : nat) (s : list N) m e :
  TokenRegex.search_from p s = Some (m, e) →
  (p < e ≤ p + length s)%nat.
Proof.
  revert p. induction s as [|c s IH]; intros p; cbn [TokenRegex.search_from].
  - destruct (TokenRegex.match_here p []) as [m'|] eqn:Hm; [|done].
    intros [= -> <-]. apply match_here_prefix in Hm as [Hpre Hlen].
    apply prefix_length in Hpre. lia.
  - destruct (TokenRegex.match_here p (c :: s)) as [m'|] eqn:Hm.
    + intros [= -> <-]. apply match_here_prefix in Hm as [Hpre Hlen].
      apply prefix_length in Hpre. lia.
    + intros Hs. apply IH in Hs. cbn [length]. lia.
Qed.

(** Every match moves [lastIndex] forward and keeps it within the query. *)
Lemma exec_advances (query : list N) (i : nat) m i' :
  TokenRegex.exec query i = Some (m, i') → (i < i' ≤ length query)%nat.
Proof.
  unfold TokenRegex.exec. destruct (decide (length query < i)%nat); [done|].
  intros Hs%search_from_bounds. rewrite length_drop in Hs. lia.
Qed.

Lemma token_loop_exec_all fuel query i ls :
  token_loop fuel query i ls
  = foldl (λ ls m, loop_body m ls) ls (exec_all fuel query i).
Proof.
  revert i ls. induction fuel as [|fuel IH]; intros i ls; cbn; [done|].
  destruct (TokenRegex.exec query i) as [[m i']|]; [|done]. apply IH.
Qed.

(** The loop always ends by [exec] returning [null]: fuel beyond the
    length of the query is never used. *)
Lemma exec_all_enough_fuel fuel1 fuel2 query i :
  (length query < fuel1 + i)%nat → (length query < fuel2 + i)%nat →
  exec_all fuel1 query i = exec_all fuel2 query i.
Proof.
  revert fuel2 i. induction fuel1 as [|fuel1 IH]; intros fuel2 i H1 H2.
  - destruct fuel2 as [|fuel2]; [done|]. cbn.
    unfold TokenRegex.exec. destruct (decide (length query < i)%nat); [done|lia].
  - destruct fuel2 as [|fuel2]; cbn.
    + unfold TokenRegex.exec.
      destruct (decide (length query < i)%nat); [done|lia].
    + destruct (TokenRegex.exec query i) as [[m i']|] eqn:Hexec; [|done].
      apply exec_advances in Hexec. f_equal. apply IH; lia.
Qed.

Lemma token_loop_enough_fuel fuel query ls :
  (length query < fuel)%nat →
  token_loop fuel query 0 ls = parse_and_filter_from ls query.
Proof.
  intros Hfuel. unfold parse_and_filter_from.
  rewrite !token_loop_exec_all.
  f_equal. apply exec_all_enough_fuel; lia.
Qed.

Lemma filter_True_id {A} (P : A → Prop) `{!∀ x, Decision (P x)} (l : list A) :
  (∀ x, P x) → filter P l = l.
Proof.
  intros HP. induction l as [|x l IH]; [done|].
  rewrite filter_cons. destruct (decide (P x)); [by rewrite IH|by destruct n].
Qed.

Lemma filtered_loop_body m ls :
  filtered (loop_body m ls) = filter (token_holds m) (filtered ls).
Proof.
  unfold loop_body. cbn [filtered].
  destruct (decide (type m = js "cat")) as [Hcat|Hcat].
  - apply list_filter_iff. intros k. unfold token_holds.
    by destruct (decide (type m = js "cat")).
  - destruct (decide (type m = js "tag")) as [Htag|Htag].
    + apply list_filter_iff. intros k. unfold token_holds.
      destruct (decide (type m = js "cat")); [done|].
      by destruct (decide (type m = js "tag")).
    + symmetry. apply filter_True_id. intros k. unfold token_holds.
      destruct (decide (type m = js "cat")); [done|].
      by destruct (decide (type m = js "tag")).
Qed.

(** The loop keeps exactly the entries that satisfy every token, in the
    order of the list it started from. *)
Lemma filtered_foldl ms ls :
  filtered (foldl (λ ls m, loop_body m ls) ls ms)
  = filter (λ k, Forall (λ m, token_holds m k) ms) (filtered ls).
Proof.
  revert ls. induction ms as [|m ms IH]; intros ls; cbn [foldl].
  - symmetry. by apply filter_True_id.
  - rewrite IH, filtered_loop_body, list_filter_filter.
    apply list_filter_iff. intros k. rewrite Forall_cons. tauto.
Qed.

Lemma remainingQuery_foldl ms ls :
  remainingQuery (foldl (λ ls m, loop_body m ls) ls ms)
  = foldl (λ r m, trim (replace_first (fullMatch m) r)) (remainingQuery ls) ms.
Proof. revert ls. induction ms as [|m ms IH]; intros ls; cbn; [done|apply IH]. Qed.

Lemma hasTokens_foldl ms ls :
  hasTokens (foldl (λ ls m, loop_body m ls) ls ms)
  = hasTokens ls || bool_decide (ms ≠ []).
Proof.
  revert ls. induction ms as [|m ms IH]; intros ls; cbn [foldl].
  - by rewrite orb_false_r.
  - rewrite IH. cbn [loop_body hasTokens]. by rewrite orb_true_r.
Qed.

(** What [FilteredResults] computes, with the loop resolved. *)
Lemma FilteredResults_unfold st :
  let query := trim (SearchQuery st) in
  let tokens := query_tokens query in
  let residual :=
    foldl (λ r m, trim (replace_first (fullMatch m) r)) query tokens in
  let subset :=
    filter (λ k, Forall (λ m, token_holds m k) tokens) (KaomojiList st) in
  FilteredResults st
  = if decide (query = []) then KaomojiList st
    else if decide (tokens = []) then fuse_search (KaomojiList st) query
    else if decide (residual = []) then subset
    else fuse_search subset residual.
Proof.
  intros query tokens residual subset. unfold FilteredResults. fold query.
  destruct (decide (query = [])); [done|].
  unfold parse_and_filter, parse_and_filter_from.
  rewrite token_loop_exec_all. fold (query_tokens query). fold tokens.
  rewrite hasTokens_foldl, remainingQuery_foldl, filtered_foldl.
  cbn [hasTokens remainingQuery filtered orb]. fold residual subset.
  destruct (decide (tokens = [])) as [->|Htok].
  - by rewrite bool_decide_eq_false_2 by (by intros []).
  - rewrite bool_decide_eq_true_2 by done.
    destruct (decide (residual = [])) as [->|Hres].
    + by destruct (decide (0 < length (@nil N))%nat) as [Hlt|_];
        [cbn in Hlt; lia|].
    + destruct (decide (0 < length residual)%nat) as [_|Hlen]; [done|].
      destruct residual; [done|cbn in Hlen; lia].
Qed.

(** The part of the structured-only contract that the script keeps: when
    the loop leaves no residual, the result is the catalog filtered by
    every token, in catalog order, and Fuse is not consulted. *)
Lemma FilteredResults_empty_residual st :
  let query := trim (SearchQuery st) in
  query_tokens query ≠ [] →
  remainingQuery (parse_and_filter (KaomojiList st) query) = [] →
  FilteredResults st
  = filter (λ k, Forall (λ m, token_holds m k) (query_tokens query))
           (KaomojiList st).
Proof.
  intros query Htok Hres. rewrite FilteredResults_unfold. fold query.
  unfold parse_and_filter, parse_and_filter_from in Hres.
  rewrite token_loop_exec_all, remainingQuery_foldl in Hres.
  fold (query_tokens query) in Hres. cbn [remainingQuery] in Hres.
  destruct (decide (query = [])) as [Hq|_].
  { rewrite Hq in Htok. by destruct Htok. }
  destruct (decide (query_tokens query = [])); [done|].
  by destruct (decide (_ = [])).
Qed.

(** On a value without surrogate pairs, sanitizing keeps exactly the
    code units of the class [[\p{L}\p{N}_-]], in order. *)
Lemma sanitize_no_surrogates (s : list N) :
  Forall (λ c, is_high_surrogate c = false) s →
  sanitize s = List.filter keep_code_point s.
Proof.
  induction 1 as [|c s Hc _ IH]; [done|].
  cbn [sanitize List.filter]. rewrite Hc. cbn [andb].
  destruct s as [|d s]; [done|]. by rewrite IH.
Qed.

(** The first query example of the page: one token, no residual. *)
Lemma FilteredResults_single_token_example (st : AppState) :
  FilteredResults (set_SearchQuery (js "cat:Joy") st)
  = filter (λ k, toLowerCase (Category k) = js "joy") (KaomojiList st).
Proof.
  rewrite FilteredResults_unfold.
  cbn [SearchQuery set_SearchQuery KaomojiList].
  replace (trim (js "cat:Joy")) with (js "cat:Joy") by (by vm_compute).
  replace (query_tokens (js "cat:Joy"))
    with [ {| fullMatch := js "cat:Joy"; type := js "cat";
              value := js "Joy" |} ] by (by vm_compute).
  destruct (decide (js "cat:Joy" = [])) as [[=]|_].
  destruct (decide (_ = [])) as [[=]|_].
  replace (foldl _ _ _) with (@nil N) by (by vm_compute).
  destruct (decide (@nil N = [])); [|done].
  apply list_filter_iff. intros k. rewrite Forall_singleton.
  unfold token_holds, sanitizedValue. cbn [type value].
  destruct (decide (js "cat" = js "cat")); [|done].
  by replace (toLowerCase (sanitize (js "Joy"))) with (js "joy")
    by (by vm_compute).
Qed.

(** C1, at the query [cat:Love tag:kiss].  The two tokens are both applied
    as filters, but the loop leaves [tag:kiss] as residual, so the result
    is what Fuse returns for the pattern [tag:kiss] on the filtered
    subset, not the subset itself. *)
Theorem FilteredResults_two_tokens_ranked (st : AppState) :
  let subset :=
    filter (λ k, toLowerCase (Category k) = js "love"
                 ∧ Exists (λ t, toLowerCase t = js "kiss") (Tags k))
           (KaomojiList st) in
  FilteredResults (set_SearchQuery (js "cat:Love tag:kiss") st)
  = fuse_search subset (js "tag:kiss").
Proof.
  intros subset. rewrite FilteredResults_unfold.
  cbn [SearchQuery set_SearchQuery KaomojiList].
  replace (trim (js "cat:Love tag:kiss")) with (js "cat:Love tag:kiss")
    by (by vm_compute).
  replace (query_tokens (js "cat:Love tag:kiss"))
    with [ {| fullMatch := js "cat:Love"; type := js "cat";
              value := js "Love" |};
           {| fullMatch := js " tag:kiss"; type := js "tag";
              value := js "kiss" |} ] by (by vm_compute).
  destruct (decide (js "cat:Love tag:kiss" = [])) as [[=]|_].
  destruct (decide (_ = [])) as [[=]|_].
  replace (foldl _ _ _) with (js "tag:kiss") by (by vm_compute).
  destruct (decide (js "tag:kiss" = [])) as [[=]|_].
  f_equal. apply list_filter_iff. intros k.
  rewrite Forall_cons, Forall_singleton.
  unfold token_holds, sanitizedValue. cbn [type value].
  destruct (decide (js "cat" = js "cat")); [|done].
  destruct (decide (js "tag" = js "cat")) as [[=]|_].
  destruct (decide (js "tag" = js "tag")); [|done].
  replace (toLowerCase (sanitize (js "Love"))) with (js "love")
    by (by vm_compute).
  by replace (toLowerCase (sanitize (js "kiss"))) with (js "kiss")
    by (by vm_compute).
Qed.

(** C2, at the query [cat:Love tag:kiss].  Both token values are
    normalized as stated ([love], [kiss]), but the residual of the loop is
    [tag:kiss], whereas the query with both tokens cut out is empty. *)
Theorem residual_two_tokens (catalog : list KaomojiEntry) :
  let raw := js "cat:Love tag:kiss" in
  sanitizedValue <$> query_tokens (trim raw) = [js "love"; js "kiss"]
  ∧ remainingQuery (parse_and_filter catalog (trim raw)) = js "tag:kiss"
  ∧ spec_residual raw = [].
Proof.
  intros raw. split_and!.
  - by vm_compute.
  - unfold parse_and_filter, parse_and_filter_from.
    rewrite token_loop_exec_all, remainingQuery_foldl. by vm_compute.
  - by vm_compute.
Qed.

(** The page's own example of combined filters, [cat:Joy tag:blush happy]:
    the loop leaves [tag:blush happy], the query without its tokens is
    [happy]. *)
Lemma residual_combined_filters_example (catalog : list KaomojiEntry) :
  let raw := js "cat:Joy tag:blush happy" in
  remainingQuery (parse_and_filter catalog (trim raw)) = js "tag:blush happy"
  ∧ spec_residual raw = js "happy".
Proof.
  intros raw. split; [|by vm_compute].
  unfold parse_and_filter, parse_and_filter_from.
  rewrite token_loop_exec_all, remainingQuery_foldl. by vm_compute.
Qed.

(** ** Selection cursor *)

Lemma FilteredResults_set_SelectedIndex v st :
  FilteredResults (set_SelectedIndex v st) = FilteredResults st.
Proof. reflexivity. Qed.

(** C4. After the clamp effect has run for the current result list of
    length [newLen], a cursor that was not negative is 0 when the list is
    empty and lies in [0, newLen - 1] otherwise; it becomes 0 if
    [newLen = 0], [newLen - 1] if it was [>= newLen], and it is unchanged
    otherwise.  Nothing but the cursor changes. *)
Theorem SelectedIndex_clamp_spec (st : AppState) :
  (0 ≤ SelectedIndex st)%Z →
  let newLen := Z.of_nat (length (FilteredResults st)) in
  let st' := SelectedIndex_clamp_effect st in
  st' = set_SelectedIndex (SelectedIndex st') st
  ∧ FilteredResults st' = FilteredResults st
  ∧ (newLen = 0 → SelectedIndex st' = 0)%Z
  ∧ (newLen ≠ 0 → newLen ≤ SelectedIndex st → SelectedIndex st' = newLen - 1)%Z
  ∧ (newLen ≠ 0 → SelectedIndex st < newLen →
     SelectedIndex st' = SelectedIndex st)%Z
  ∧ (0 < newLen → 0 ≤ SelectedIndex st' ≤ newLen - 1)%Z.
Proof.
  intros Hpos newLen st'. subst st'. unfold SelectedIndex_clamp_effect.
  fold newLen.
  destruct (Z.eqb_spec newLen 0) as [Hz | Hnz].
  - rewrite FilteredResults_set_SelectedIndex. cbn. repeat split; lia.
  - destruct (Z.geb_spec (SelectedIndex st) newLen) as [Hge | Hlt].
    + rewrite FilteredResults_set_SelectedIndex. cbn. repeat split; lia.
    + repeat split; try lia. by destruct st.
Qed.
(** ** Catalog: upsert on save *)

Lemma upsert_found (catalog : list KaomojiEntry) entry i old :
  list_find (λ k, Character k = Character entry) catalog = Some (i, old) →
  upsert catalog entry = <[i:=entry]> catalog.
Proof.
  intros Hfind. unfold upsert. rewrite Hfind.
  apply list_find_Some in Hfind as (Hi & _ & _).
  apply lookup_lt_Some in Hi.
  rewrite insert_take_drop by done.
  by replace (i + 1)%nat with (S i) by lia.
Qed.

Lemma upsert_fresh (catalog : list KaomojiEntry) entry :
  Character entry ∉ Character <$> catalog →
  upsert catalog entry = catalog ++ [entry].
Proof.
  intros Hfresh. unfold upsert.
  destruct (list_find _ catalog) as [[i old]|] eqn:Hfind; [|done].
  apply list_find_Some in Hfind as (Hi & Heq & _).
  destruct Hfresh. rewrite <- Heq.
  apply list_elem_of_fmap. exists old. split; [done|].
  by eapply list_elem_of_lookup_2.
Qed.

(** C5. When the glyph of [entry] is already in the catalog, upsert puts
    [entry] (all its fields) at the position of the first catalog entry
    with that glyph; the catalog keeps its length and every other position
    keeps its entry.  When the glyph is not in the catalog, [entry] is
    appended at the end.  A successful save applies exactly this upsert. *)
Theorem upsert_in_place (catalog : list KaomojiEntry) (entry : KaomojiEntry) :
  (Character entry ∈ Character <$> catalog →
   ∃ i old,
     catalog !! i = Some old ∧ Character old = Character entry
     ∧ (∀ j k, catalog !! j = Some k → (j < i)%nat →
               Character k ≠ Character entry)
     ∧ upsert catalog entry !! i = Some entry
     ∧ length (upsert catalog entry) = length catalog
     ∧ ∀ j, j ≠ i → upsert catalog entry !! j = catalog !! j)
  ∧ (Character entry ∉ Character <$> catalog →
     upsert catalog entry = catalog ++ [entry])
  ∧ (∀ st, trim (NewCharacter st) ≠ [] →
       KaomojiList (SubmitNewKaomoji (Resolved ()) st).1
       = upsert (KaomojiList st) (form_entry st)).
Proof.
  split_and!.
  - intros (old & Heq & Hin)%list_elem_of_fmap.
    destruct (list_find_elem_of (λ k, Character k = Character entry)
                catalog old Hin (eq_sym Heq)) as [[i old'] Hfind].
    pose proof (upsert_found _ _ _ _ Hfind) as Hup.
    apply list_find_Some in Hfind as (Hi & Hold & Hfirst).
    exists i, old'. rewrite Hup. split_and!; try done.
    + apply list_lookup_insert_eq. by eapply lookup_lt_Some.
    + apply length_insert.
    + intros j Hj. by apply list_lookup_insert_ne.
  - apply upsert_fresh.
  - intros st Hne. unfold SubmitNewKaomoji.
    by destruct (decide (trim (NewCharacter st) = [])).
Qed.

(** C6. When the save is rejected, [SubmitNewKaomoji] returns the state it
    was given: the catalog, and every other field, is as before, whatever
    the form holds.  With a non-blank character field the save was
    attempted and its failure logged; nothing else happened. *)
Theorem SubmitNewKaomoji_rejected_unchanged (st : AppState) :
  (SubmitNewKaomoji Rejected st).1 = st
  ∧ KaomojiList (SubmitNewKaomoji Rejected st).1 = KaomojiList st
  ∧ (SubmitNewKaomoji Rejected st).2
    = if decide (trim (NewCharacter st) = []) then []
      else [InvokeSaveKaomoji (form_entry st);
            ConsoleError (js "Failed to save kaomoji")].
Proof.
  unfold SubmitNewKaomoji.
  by destruct (decide (trim (NewCharacter st) = [])).
Qed.

(** ** Recency list *)

Lemma RecentKaomojis_AddToRecents entry st :
  RecentKaomojis (AddToRecents entry st)
  = take 8 (entry :: filter (λ k, Character k ≠ Character entry)
                            (RecentKaomojis st)).
Proof. reflexivity. Qed.

Lemma filter_other_glyph_id (g : list N) (l : list KaomojiEntry) :
  Forall (λ k, Character k ≠ g) l →
  filter (λ k, Character k ≠ g) l = l.
Proof.
  induction 1 as [|k l Hk _ IH]; [done|].
  rewrite filter_cons. destruct (decide (Character k ≠ g)); [|done].
  by rewrite IH.
Qed.

Lemma Forall_filter_other_glyph (g : list N) (l : list KaomojiEntry) :
  Forall (λ k, Character k ≠ g) (filter (λ k, Character k ≠ g) l).
Proof. apply Forall_forall. by intros k [? _]%list_elem_of_filter. Qed.

Lemma AddToRecents_NoDup entry st :
  NoDup (Character <$> RecentKaomojis st) →
  NoDup (Character <$> RecentKaomojis (AddToRecents entry st)).
Proof.
  intros Hnd. rewrite RecentKaomojis_AddToRecents.
  eapply sublist_NoDup; [|apply fmap_sublist, sublist_take].
  rewrite fmap_cons. apply NoDup_cons. split.
  - intros (k & Heq & Hk)%list_elem_of_fmap.
    by apply list_elem_of_filter in Hk as [Hne _].
  - eapply sublist_NoDup; [exact Hnd|]. apply fmap_sublist, sublist_filter.
Qed.

Lemma AddToRecents_length entry st :
  (length (RecentKaomojis (AddToRecents entry st)) ≤ 8)%nat.
Proof. rewrite RecentKaomojis_AddToRecents, length_take. lia. Qed.

(** C7. [AddToRecents] puts the entry at the front of the old list without
    the elements that have its glyph, cut to 8 elements.  Recording two
    entries with one glyph in a row leaves the length as the first
    recording made it and the second entry at the front.  Starting from an
    empty recency list, after any sequence of recordings the list has no
    two elements with one glyph and at most 8 elements. *)
Theorem AddToRecents_spec :
  (∀ entry st,
     let recents := RecentKaomojis (AddToRecents entry st) in
     recents = take 8 (entry :: filter (λ k, Character k ≠ Character entry)
                                       (RecentKaomojis st))
     ∧ head recents = Some entry
     ∧ Forall (λ k, Character k ≠ Character entry) (tail recents)
     ∧ tail recents `sublist_of` RecentKaomojis st
     ∧ (length recents ≤ 8)%nat)
  ∧ (∀ e1 e2 st,
       Character e1 = Character e2 →
       let st1 := AddToRecents e1 st in
       let st2 := AddToRecents e2 st1 in
       length (RecentKaomojis st2) = length (RecentKaomojis st1)
       ∧ head (RecentKaomojis st2) = Some e2)
  ∧ (∀ es st,
       let recents :=
         RecentKaomojis (recents_after es (set_RecentKaomojis [] st)) in
       NoDup (Character <$> recents) ∧ (length recents ≤ 8)%nat).
Proof.
  split_and!.
  - intros entry st recents. subst recents.
    rewrite RecentKaomojis_AddToRecents. cbn [take head tail].
    split_and!; try done.
    + apply Forall_take, Forall_filter_other_glyph.
    + etrans; [apply sublist_take|apply sublist_filter].
    + cbn [length]. rewrite length_take. lia.
  - intros e1 e2 st Heq st1 st2. subst st1 st2.
    rewrite !RecentKaomojis_AddToRecents. cbn [take head].
    split; [|done].
    set (rest := filter (λ k, Character k ≠ Character e1) (RecentKaomojis st)).
    rewrite filter_cons.
    destruct (decide (Character e1 ≠ Character e2)) as [Hne|_]; [done|].
    rewrite filter_other_glyph_id.
    + cbn [length]. rewrite !length_take. lia.
    + rewrite <- Heq. apply Forall_take, Forall_filter_other_glyph.
  - intros es st recents. subst recents. unfold recents_after.
    induction es as [|e es IH] using rev_ind; [split; [constructor|cbn; lia]|].
    rewrite foldl_app. cbn [foldl].
    split; [apply AddToRecents_NoDup, IH|apply AddToRecents_length].
Qed.

(** ** Catalog: merge of the user's entries at start-up *)

Lemma merge_user_items_eq (catalog userItems : list KaomojiEntry) :
  merge_user_items catalog userItems
  = catalog ++ filter (λ k, Character k ∉ Character <$> catalog) userItems.
Proof.
  unfold merge_user_items. f_equal.
  apply list_filter_iff. intros k. by rewrite elem_of_list_to_set.
Qed.

(** C8. The start-up merge yields the old catalog followed by those
    loaded entries whose glyph no catalog entry has, in the order in which
    they were loaded: the old catalog is a prefix of the result, entry for
    entry, and the appended part is a subsequence of the loaded list that
    holds a loaded entry exactly when its glyph is new.  A rejected load
    leaves the catalog as it was. *)
Theorem merge_user_items_spec (st : AppState) (userItems : list KaomojiEntry)
    (measured : option Z) :
  let catalog := KaomojiList st in
  let merged := KaomojiList (onMount (Resolved userItems) measured st).1 in
  let appended := drop (length catalog) merged in
  merged = catalog ++ appended
  ∧ appended = filter (λ k, Character k ∉ Character <$> catalog) userItems
  ∧ catalog `prefix_of` merged
  ∧ (∀ i, (i < length catalog)%nat → merged !! i = catalog !! i)
  ∧ appended `sublist_of` userItems
  ∧ (∀ k, k ∈ appended ↔ k ∈ userItems ∧ Character k ∉ Character <$> catalog)
  ∧ KaomojiList (onMount Rejected measured st).1 = catalog.
Proof.
  intros catalog merged appended.
  assert (merged = catalog ++
            filter (λ k, Character k ∉ Character <$> catalog) userItems)
    as Hmerged.
  { subst merged catalog. unfold onMount.
    destruct (decide (0 < length userItems)%nat) as [Hlen|Hlen].
    - destruct measured; cbn; apply merge_user_items_eq.
    - destruct userItems; [|cbn in Hlen; lia].
      destruct measured; cbn; by rewrite app_nil_r. }
  assert (appended =
            filter (λ k, Character k ∉ Character <$> catalog) userItems)
    as Happ.
  { subst appended. rewrite Hmerged. by rewrite drop_app_length. }
  split_and!.
  - by rewrite Happ.
  - done.
  - rewrite Hmerged. by apply prefix_app_r.
  - intros i Hi. rewrite Hmerged. by apply lookup_app_l.
  - rewrite Happ. apply sublist_filter.
  - intros k. rewrite Happ, list_elem_of_filter. tauto.
  - subst catalog. unfold onMount. by destruct measured.
Qed.

(** ** Copy *)



(** ** Keyboard navigation *)

Lemma HandleKeyDown_nav_empty native_ok navigator_ok event st :
  key event ∈ navKeys →
  length (FilteredResults st) = 0%nat →
  (HandleKeyDown native_ok navigator_ok event st).1 = st.
Proof.
  intros Hnav Hlen. unfold HandleKeyDown. rewrite Hlen.
  destruct (ShowAddModal st).
  - destruct (decide (key event = js "Escape")) as [Hesc|]; [|done].
    rewrite Hesc in Hnav. vm_compute in Hnav.
    repeat (apply elem_of_cons in Hnav as [[=]|Hnav]).
    by apply elem_of_nil in Hnav.
  - by destruct (isTyping event && bool_decide (key event ∈ navKeys)).
Qed.

(** The cursor never becomes negative under the keyboard, as long as the
    column count is not negative. *)
Lemma HandleKeyDown_cursor_nonneg native_ok navigator_ok event st :
  (0 ≤ SelectedIndex st)%Z → (0 ≤ GridCols st)%Z →
  (0 ≤ SelectedIndex (HandleKeyDown native_ok navigator_ok event st).1)%Z.
Proof.
  intros Hcur Hcols. unfold HandleKeyDown.
  destruct (ShowAddModal st).
  { by destruct (decide (key event = js "Escape")). }
  destruct (isTyping event && bool_decide (key event ∈ navKeys)); [done|].
  set (itemsCount := Z.of_nat (length (FilteredResults st))).
  destruct (Z.eqb_spec itemsCount 0) as [|Hcount]; [done|].
  assert (0 < itemsCount)%Z by lia.
  repeat case_decide; cbn [fst SelectedIndex set_SelectedIndex]; try done.
  all: try (apply Z.rem_nonneg; lia).
  all: try lia.
  all: destruct (index_at _ _) as [item|]; [|done].
  all: unfold CopyToClipboard, HandleCopySuccess, AddToRecents.
  all: destruct native_ok, navigator_ok; cbn -[js take filter]; try done.
  all: by destruct (list_find _ _) as [[??]|].
Qed.

(** C9. With the modal closed and the focus not in a text field, on a
    result list of length [len > 0] and for every cursor position on it,
    that is from 0 to [len - 1], ArrowRight sets the cursor to
    [(cursor + 1) mod len], so from [len - 1] to 0, and ArrowLeft to
    [(cursor - 1) mod len], so from 0 to [len - 1]; nothing but the cursor
    changes.  On an empty result list both keys leave the state as it
    is. *)
Theorem horizontal_move_wraps (native_ok navigator_ok : bool)
    (event : KeyboardEvent) (st : AppState) :
  key event = js "ArrowRight" ∨ key event = js "ArrowLeft" →
  let len := Z.of_nat (length (FilteredResults st)) in
  let st' := (HandleKeyDown native_ok navigator_ok event st).1 in
  (len = 0 → st' = st)%Z
  ∧ (0 < len → ShowAddModal st = false → isTyping event = false →
     0 ≤ SelectedIndex st < len →
     st' = set_SelectedIndex (SelectedIndex st') st
     ∧ (key event = js "ArrowRight" →
        SelectedIndex st' = (SelectedIndex st + 1) `mod` len
        ∧ (SelectedIndex st = len - 1 → SelectedIndex st' = 0))
     ∧ (key event = js "ArrowLeft" →
        SelectedIndex st' = (SelectedIndex st - 1) `mod` len
        ∧ (SelectedIndex st = 0 → SelectedIndex st' = len - 1)))%Z.
Proof.
  intros Hkey len st'. split.
  - intros Hlen. apply HandleKeyDown_nav_empty; [|lia].
    destruct Hkey as [-> | ->]; unfold navKeys;
      rewrite !elem_of_cons; auto.
  - intros Hlen Hmodal Htyping Hcur. subst st'. unfold HandleKeyDown.
    rewrite Hmodal, Htyping. cbn [andb]. fold len.
    destruct (Z.eqb_spec len 0) as [|_]; [lia|].
    destruct Hkey as [Hkey | Hkey]; rewrite Hkey.
    + destruct (decide (js "ArrowRight" = js "ArrowRight")); [|done].
      cbn [fst]. split; [done|]. split; [|intros [=]].
      intros _. cbn [SelectedIndex set_SelectedIndex].
      rewrite Z.rem_mod_nonneg by lia. split; [done|].
      intros ->. replace (len - 1 + 1)%Z with len by lia.
      apply Z_mod_same_full.
    + destruct (decide (js "ArrowLeft" = js "ArrowRight")) as [[=]|_].
      destruct (decide (js "ArrowLeft" = js "ArrowLeft")); [|done].
      cbn [fst]. split; [done|]. split; [intros [=]|].
      intros _. cbn [SelectedIndex set_SelectedIndex].
      rewrite Z.rem_mod_nonneg by lia.
      replace (SelectedIndex st - 1 + len)%Z
        with (SelectedIndex st - 1 + 1 * len)%Z by lia.
      rewrite Z_mod_plus_full. split; [done|].
      intros ->.
      replace (0 - 1)%Z with (len - 1 + (-1) * len)%Z by lia.
      rewrite Z_mod_plus_full. apply Z.mod_small. lia.
Qed.

(** C10, as the script has it.  On an empty result list the handler never
    copies, and never changes the search query.  With the modal closed it
    returns the state unchanged for every key, and its only effect is
    [preventDefault].  With the modal open the guard on the result list is
    not reached: Escape closes the modal, and that is the one change. *)
Theorem HandleKeyDown_empty_results (native_ok navigator_ok : bool)
    (event : KeyboardEvent) (st : AppState) :
  FilteredResults st = [] →
  let st' := (HandleKeyDown native_ok navigator_ok event st).1 in
  let log := (HandleKeyDown native_ok navigator_ok event st).2 in
  SearchQuery st' = SearchQuery st
  ∧ (∀ e, e ∈ log → e = PreventDefault)
  ∧ (ShowAddModal st = false → st' = st)
  ∧ (ShowAddModal st = true →
     st' = if decide (key event = js "Escape")
           then set_ShowAddModal false st else st).
Proof.
  intros Hempty st' log. subst st' log. unfold HandleKeyDown.
  rewrite Hempty. cbn [length Z.of_nat Z.eqb].
  destruct (ShowAddModal st).
  - destruct (decide (key event = js "Escape")) as [Hesc|Hesc]; cbn [fst snd];
      (split_and!; [done| |done..]); by intros eff ?%elem_of_nil.
  - destruct (isTyping event && bool_decide (key event ∈ navKeys));
      cbn [fst snd]; (split_and!; [done| |done..]).
    + by intros eff ?%elem_of_nil.
    + destruct (bool_decide (key event ∈ handledKeys)).
      * by intros eff ?%list_elem_of_singleton.
      * by intros eff ?%elem_of_nil.
Qed.

(** * Further properties of the script *)

(** ** Trimming *)

Lemma trimStart_all_ws (s : list N) :
  Forall (λ c, is_ws c = true) s → trimStart s = [].
Proof. induction 1 as [|c s Hc _ IH]; [done|]. cbn. by rewrite Hc. Qed.

Lemma trimStart_head (s : list N) c r :
  trimStart s = c :: r → is_ws c = false.
Proof.
  induction s as [|d s IH]; cbn; [done|].
  destruct (is_ws d) eqn:Hd; [done|]. by intros [= <- _].
Qed.

Lemma trimStart_suffix (s : list N) : trimStart s `suffix_of` s.
Proof.
  induction s as [|d s IH]; cbn; [done|].
  destruct (is_ws d); [by apply suffix_cons_r|done].
Qed.

Lemma trimStart_nil_inv (s : list N) :
  trimStart s = [] → Forall (λ c, is_ws c = true) s.
Proof.
  induction s as [|d s IH]; cbn; [done|].
  destruct (is_ws d) eqn:Hd; [|done]. intros Hs. constructor; auto.
Qed.

Lemma trimStart_id (c : N) (r : list N) :
  is_ws c = false → trimStart (c :: r) = c :: r.
Proof. intros Hc. cbn. by rewrite Hc. Qed.

Lemma trim_elem_of (s : list N) c : c ∈ trim s → c ∈ s.
Proof.
  unfold trim, trimEnd. rewrite elem_of_reverse. intros Hc.
  eapply elem_of_suffix in Hc; [|apply trimStart_suffix].
  rewrite elem_of_reverse in Hc.
  eapply elem_of_suffix; [exact Hc|apply trimStart_suffix].
Qed.

Lemma trim_nil_iff (s : list N) :
  trim s = [] ↔ Forall (λ c, is_ws c = true) s.
Proof.
  unfold trim, trimEnd. split.
  - intros Hs. apply (f_equal reverse) in Hs.
    rewrite reverse_involutive in Hs. cbn in Hs.
    apply trimStart_nil_inv in Hs. rewrite Forall_reverse in Hs.
    destruct (trimStart s) as [|c r] eqn:Hts; [by apply trimStart_nil_inv|].
    apply trimStart_head in Hts. apply Forall_cons in Hs as [Hc _]. congruence.
  - intros Hs. by rewrite (trimStart_all_ws s Hs).
Qed.

(** A string that neither starts nor ends with whitespace is its own trim. *)
Lemma trim_id (s : list N) c d :
  head s = Some c → last s = Some d → is_ws c = false → is_ws d = false →
  trim s = s.
Proof.
  intros Hhead Hlast Hc Hd. unfold trim, trimEnd.
  destruct s as [|c' r]; [done|]. injection Hhead as ->.
  rewrite (trimStart_id c r Hc).
  destruct (reverse (c :: r)) as [|d' r'] eqn:Hrev.
  { apply (f_equal reverse) in Hrev. by rewrite reverse_involutive in Hrev. }
  assert (d' = d) as ->.
  { rewrite <- head_reverse, Hrev in Hlast. by injection Hlast. }
  rewrite (trimStart_id d r' Hd), <- Hrev. apply reverse_involutive.
Qed.

(** What [trim] returns has no whitespace at either end. *)
Lemma trim_ends (s : list N) :
  (∀ c, head (trim s) = Some c → is_ws c = false)
  ∧ (∀ d, last (trim s) = Some d → is_ws d = false).
Proof.
  unfold trim, trimEnd.
  destruct (trimStart (reverse (trimStart s))) as [|d r] eqn:Hend.
  { split; intros ?; by rewrite reverse_nil. }
  pose proof (trimStart_head _ _ _ Hend) as Hd.
  split.
  - intros c. rewrite head_reverse. intros Hc.
    pose proof (trimStart_suffix (reverse (trimStart s))) as [k Hk].
    rewrite Hend in Hk.
    assert (last (reverse (trimStart s)) = Some c) as Hlast.
    { rewrite Hk, last_app, Hc. done. }
    rewrite last_reverse in Hlast.
    destruct (trimStart s) as [|c' r'] eqn:Hstart; [done|].
    injection Hlast as <-. by eapply trimStart_head.
  - intros d'. rewrite last_reverse. cbn. by intros [= <-].
Qed.

Lemma trim_idemp (s : list N) : trim (trim s) = trim s.
Proof.
  destruct (trim s) as [|c r] eqn:Hs; [done|].
  pose proof (trim_ends s) as [Hhead Hlast]. rewrite Hs in Hhead, Hlast.
  destruct (last (c :: r)) as [d|] eqn:Hd.
  - eapply trim_id; [done|exact Hd|by apply Hhead|by apply Hlast].
  - by apply last_None in Hd.
Qed.

(** ** The token regular expression, read backwards and forwards *)

Lemma take_while_spec (p : N → bool) (s : list N) :
  ∃ rest, s = take_while p s ++ rest
          ∧ Forall (λ c, p c = true) (take_while p s)
          ∧ ∀ c, head rest = Some c → p c = false.
Proof.
  induction s as [|c s (rest & Hs & Hall & Hrest)]; cbn.
  - exists []. by split_and!.
  - destruct (p c) eqn:Hc.
    + exists rest. split_and!; [cbn; congruence|by constructor|done].
    + exists (c :: s). split_and!; [done|done|]. by intros ? [= <-].
Qed.

Lemma take_while_app (p : N → bool) (v rest : list N) :
  Forall (λ c, p c = true) v → (∀ c, head rest = Some c → p c = false) →
  take_while p (v ++ rest) = v.
Proof.
  intros Hv Hrest. induction Hv as [|c v Hc _ IH]; cbn.
  - destruct rest as [|c rest]; [done|]. cbn. by rewrite (Hrest c).
  - by rewrite Hc, IH.
Qed.

Lemma startsWith_app_l (pat s : list N) : startsWith pat (pat ++ s) = true.
Proof. induction pat as [|c pat IH]; cbn; [done|]. by rewrite N.eqb_refl. Qed.

Lemma negb_is_ws_true (v : list N) :
  Forall (λ c, negb (is_ws c) = true) v ↔ Forall (λ c, is_ws c = false) v.
Proof. apply Forall_proper; [|done]. intros c. by destruct (is_ws c). Qed.

(** Reading a match of the body backwards. *)
Lemma match_body_inv (lead s : list N) (m : RegExpMatch) :
  TokenRegex.match_body lead s = Some m →
  (type m = js "cat" ∨ type m = js "tag")
  ∧ value m ≠ []
  ∧ Forall (λ c, is_ws c = false) (value m)
  ∧ fullMatch m = lead ++ type m ++ js ":" ++ value m
  ∧ ∃ rest, s = type m ++ js ":" ++ value m ++ rest.
Proof.
  unfold TokenRegex.match_body.
  assert (∀ kw : list N,
    (if startsWith (kw ++ js ":") s
     then match take_while (λ c, negb (is_ws c)) (drop (length kw + 1) s) with
          | [] => None
          | v => Some {| fullMatch := lead ++ kw ++ js ":" ++ v;
                         type := kw; value := v |}
          end
     else None) = Some m →
    type m = kw ∧ value m ≠ []
    ∧ Forall (λ c, is_ws c = false) (value m)
    ∧ fullMatch m = lead ++ type m ++ js ":" ++ value m
    ∧ ∃ rest, s = type m ++ js ":" ++ value m ++ rest) as Hattempt.
  { intros kw. destruct (startsWith (kw ++ js ":") s) eqn:Hstart; [|done].
    apply startsWith_app in Hstart. rewrite length_app in Hstart.
    change (length (js ":")) with 1%nat in Hstart.
    destruct (take_while_spec (λ c, negb (is_ws c))
                (drop (length kw + 1) s)) as (rest & Hdrop & Hall & _).
    destruct (take_while _ _) as [|v0 v] eqn:Hv; [done|].
    intros [= <-]. cbn [type value fullMatch].
    split_and!; [done|done|by apply negb_is_ws_true|done|].
    exists rest. rewrite <- Hdrop.
    by rewrite (assoc_L (++)), <- Hstart. }
  destruct (startsWith (js "cat" ++ js ":") s) eqn:Hcat.
  - destruct (take_while _ (drop (length (js "cat") + 1) s)) eqn:Hv.
    + intros (Hkw & ?)%Hattempt. split; [by right|done].
    + intros Hm. destruct (Hattempt (js "cat")) as (Hkw & ?).
      { by rewrite Hcat, Hv. }
      split; [by left|done].
  - intros (Hkw & ?)%Hattempt. split; [by right|done].
Qed.

Lemma match_here_inv (p : nat) (s : list N) (m : RegExpMatch) :
  TokenRegex.match_here p s = Some m →
  well_formed_token m ∧ ∃ rest, s = fullMatch m ++ rest.
Proof.
  unfold TokenRegex.match_here, well_formed_token.
  destruct (if decide (p = 0%nat) then TokenRegex.match_body [] s else None)
    as [m'|] eqn:Hanchored.
  - intros [= ->]. destruct (decide (p = 0%nat)); [|done].
    apply match_body_inv in Hanchored
      as (Hkind & Hne & Hval & Hfull & rest & Hs).
    split_and!; [done..| |].
    + exists []. by split; [|left].
    + exists rest. rewrite Hfull. cbn [app]. by rewrite <- !(assoc_L (++)).
  - destruct s as [|c s]; [done|]. destruct (is_ws c) eqn:Hc; [|done].
    intros (Hkind & Hne & Hval & Hfull & rest & Hs)%match_body_inv.
    split_and!; [done..| |].
    + exists [c]. split; [done|]. right. by exists c.
    + exists rest. rewrite Hfull, Hs. cbn [app].
      by rewrite <- !(assoc_L (++)).
Qed.

Lemma search_from_inv (p : nat) (s : list N) m e :
  TokenRegex.search_from p s = Some (m, e) →
  well_formed_token m ∧ ∃ before rest, s = before ++ fullMatch m ++ rest.
Proof.
  revert p. induction s as [|c s IH]; intros p; cbn [TokenRegex.search_from].
  - destruct (TokenRegex.match_here p []) as [m'|] eqn:Hm; [|done].
    intros [= -> <-]. apply match_here_inv in Hm as (? & rest & ?).
    split; [done|]. by exists [], rest.
  - destruct (TokenRegex.match_here p (c :: s)) as [m'|] eqn:Hm.
    + intros [= -> <-]. apply match_here_inv in Hm as (? & rest & ?).
      split; [done|]. by exists [], rest.
    + intros (? & before & rest & ->)%IH. split; [done|].
      by exists (c :: before), rest.
Qed.

Lemma exec_inv (query : list N) (i : nat) m i' :
  TokenRegex.exec query i = Some (m, i') →
  well_formed_token m ∧ ∃ before rest, query = before ++ fullMatch m ++ rest.
Proof.
  unfold TokenRegex.exec. destruct (decide (length query < i)%nat); [done|].
  intros (? & before & rest & Hdrop)%search_from_inv. split; [done|].
  exists (take i query ++ before), rest.
  by rewrite <- (assoc_L (++)), <- Hdrop, take_drop.
Qed.

(** X1. Every token that the loop of [FilteredResults] sees has kind [cat]
    or [tag] and a non-empty value without whitespace, is written in the
    query as kind, colon, value after at most one whitespace character,
    and occurs in the query as it stands. *)
Theorem query_tokens_well_formed (query : list N) :
  Forall (λ m, well_formed_token m
               ∧ ∃ before rest, query = before ++ fullMatch m ++ rest)
         (query_tokens query).
Proof.
  unfold query_tokens. generalize (S (length query)) 0%nat.
  intros fuel. induction fuel as [|fuel IH]; intros i; cbn; [done|].
  destruct (TokenRegex.exec query i) as [[m i']|] eqn:Hexec; [|done].
  constructor; [by eapply exec_inv|apply IH].
Qed.

Lemma exec_all_no_match fuel (query : list N) (i : nat) :
  TokenRegex.exec query i = None → exec_all fuel query i = [].
Proof. intros Hexec. destruct fuel; cbn; [done|]. by rewrite Hexec. Qed.

Lemma well_formed_token_colon (m : RegExpMatch) :
  well_formed_token m → 58 ∈ fullMatch m.
Proof.
  intros (_ & _ & _ & lead & -> & _).
  rewrite !elem_of_app. right. right. left. by apply list_elem_of_singleton.
Qed.

Lemma query_tokens_no_colon (query : list N) :
  58 ∉ query → query_tokens query = [].
Proof.
  intros Hcolon. apply exec_all_no_match.
  destruct (TokenRegex.exec query 0) as [[m i']|] eqn:Hexec; [|done].
  apply exec_inv in Hexec as (Hm%well_formed_token_colon & before & rest & ->).
  destruct Hcolon. rewrite !elem_of_app. auto.
Qed.

(** X2. A query that is empty or all whitespace shows the whole catalog,
    in catalog order; neither the token loop nor Fuse has a say. *)
Theorem FilteredResults_blank_query (st : AppState) :
  Forall (λ c, is_ws c = true) (SearchQuery st) →
  FilteredResults st = KaomojiList st.
Proof.
  intros Hblank%trim_nil_iff. unfold FilteredResults. rewrite Hblank.
  by destruct (decide (@nil N = [])).
Qed.

(** X3. A query without a colon that is not blank has no tokens: the
    result is what Fuse finds for the trimmed query in the whole
    catalog. *)
Theorem FilteredResults_plain_query (st : AppState) :
  58 ∉ SearchQuery st →
  ¬ Forall (λ c, is_ws c = true) (SearchQuery st) →
  FilteredResults st
  = fuse_search (KaomojiList st) (trim (SearchQuery st)).
Proof.
  intros Hcolon Hblank. rewrite FilteredResults_unfold.
  destruct (decide (trim (SearchQuery st) = [])) as [Htrim|_].
  { by apply trim_nil_iff in Htrim. }
  rewrite query_tokens_no_colon.
  - by destruct (decide (@nil RegExpMatch = [])).
  - intros Hin. by apply Hcolon, trim_elem_of.
Qed.

(** X4. Whenever the query has a token, Fuse never sees an entry that
    fails a token: the result is either the catalog filtered by every
    token, in catalog order, or Fuse's answer on exactly that filtered
    list. *)
Theorem FilteredResults_filters_before_ranking (st : AppState) :
  let tokens := query_tokens (trim (SearchQuery st)) in
  let subset :=
    filter (λ k, Forall (λ m, token_holds m k) tokens) (KaomojiList st) in
  tokens ≠ [] →
  subset `sublist_of` KaomojiList st
  ∧ (FilteredResults st = subset
     ∨ ∃ residual, residual ≠ []
                   ∧ FilteredResults st = fuse_search subset residual).
Proof.
  intros tokens subset Htokens. split; [apply sublist_filter|].
  rewrite FilteredResults_unfold. fold tokens subset.
  destruct (decide (trim (SearchQuery st) = [])) as [Hq|_].
  { subst tokens. rewrite Hq in Htokens. by destruct Htokens. }
  destruct (decide (tokens = [])); [done|].
  destruct (decide (_ = [])) as [|Hres]; [by left|].
  right. eexists. by split.
Qed.

(** ** One token, any value *)

Lemma match_body_token (lead kw v rest : list N) :
  kw = js "cat" ∨ kw = js "tag" →
  v ≠ [] → Forall (λ c, is_ws c = false) v →
  (∀ c, head rest = Some c → is_ws c = true) →
  TokenRegex.match_body lead (kw ++ js ":" ++ v ++ rest)
  = Some {| fullMatch := lead ++ kw ++ js ":" ++ v; type := kw; value := v |}.
Proof.
  intros Hkw Hne Hv Hrest.
  assert (take_while (λ c, negb (is_ws c)) (v ++ rest) = v) as Htake.
  { apply take_while_app; [by apply negb_is_ws_true|].
    intros c Hc. by rewrite (Hrest c Hc). }
  unfold TokenRegex.match_body.
  destruct Hkw as [-> | ->].
  - rewrite (assoc_L (++) (js "cat")), startsWith_app_l.
    rewrite <- (assoc_L (++) (js "cat")).
    change (drop (length (js "cat") + 1) (js "cat" ++ js ":" ++ v ++ rest))
      with (v ++ rest).
    rewrite Htake. by destruct v.
  - change (startsWith (js "cat" ++ js ":") (js "tag" ++ js ":" ++ v ++ rest))
      with false. cbv iota.
    rewrite (assoc_L (++) (js "tag")), startsWith_app_l.
    rewrite <- (assoc_L (++) (js "tag")).
    change (drop (length (js "tag") + 1) (js "tag" ++ js ":" ++ v ++ rest))
      with (v ++ rest).
    rewrite Htake. by destruct v.
Qed.

Lemma search_from_here (p : nat) (s : list N) m :
  TokenRegex.match_here p s = Some m →
  TokenRegex.search_from p s = Some (m, (p + length (fullMatch m))%nat).
Proof. intros Hm. destruct s; cbn [TokenRegex.search_from]; by rewrite Hm. Qed.

Lemma startsWith_refl (s : list N) : startsWith s s = true.
Proof. rewrite <- (app_nil_r s) at 2. apply startsWith_app_l. Qed.

Lemma replace_first_self (s : list N) : replace_first s s = [].
Proof.
  destruct s as [|c s]; [done|].
  cbn [replace_first]. rewrite startsWith_refl. apply drop_all.
Qed.

Lemma one_token_query_tokens (kw v : list N) :
  kw = js "cat" ∨ kw = js "tag" →
  v ≠ [] → Forall (λ c, is_ws c = false) v →
  let query := kw ++ js ":" ++ v in
  trim query = query
  ∧ query_tokens query
    = [ {| fullMatch := query; type := kw; value := v |} ].
Proof.
  intros Hkw Hne Hv query.
  assert (∃ d, last query = Some d ∧ is_ws d = false) as (d & Hlast & Hd).
  { destruct (last v) as [d|] eqn:Hlast; [|by apply last_None in Hlast].
    exists d. split.
    - subst query. by rewrite !last_app, Hlast.
    - apply last_Some_elem_of in Hlast.
      by apply (proj1 (Forall_forall _ _) Hv). }
  split.
  - destruct Hkw as [-> | ->]; by eapply trim_id.
  - pose proof (match_body_token [] kw v [] Hkw Hne Hv) as Hbody.
    rewrite app_nil_r in Hbody. cbn [app] in Hbody. fold query in Hbody.
    specialize (Hbody ltac:(done)).
    assert (TokenRegex.exec query 0
            = Some ({| fullMatch := query; type := kw; value := v |},
                    length query)) as Hexec.
    { unfold TokenRegex.exec.
      destruct (decide (length query < 0)%nat); [lia|].
      rewrite drop_0.
      rewrite (search_from_here 0 query
                 {| fullMatch := query; type := kw; value := v |}); [done|].
      unfold TokenRegex.match_here.
      destruct (decide (0%nat = 0%nat)); [|done]. by rewrite Hbody. }
    unfold query_tokens. cbn [exec_all]. rewrite Hexec. f_equal.
    apply exec_all_no_match. unfold TokenRegex.exec.
    destruct (decide (length query < length query)%nat); [done|].
    rewrite drop_all. cbn [TokenRegex.search_from].
    unfold TokenRegex.match_here.
    change (TokenRegex.match_body [] []) with (@None RegExpMatch).
    by destruct (decide (length query = 0%nat)).
Qed.

Lemma FilteredResults_one_token (kw v : list N) (st : AppState) :
  kw = js "cat" ∨ kw = js "tag" →
  v ≠ [] → Forall (λ c, is_ws c = false) v →
  FilteredResults (set_SearchQuery (kw ++ js ":" ++ v) st)
  = filter (token_holds
              {| fullMatch := kw ++ js ":" ++ v; type := kw; value := v |})
           (KaomojiList st).
Proof.
  intros Hkw Hne Hv.
  destruct (one_token_query_tokens kw v Hkw Hne Hv) as [Htrim Htokens].
  rewrite FilteredResults_unfold.
  cbn [SearchQuery set_SearchQuery KaomojiList].
  rewrite Htrim, Htokens. cbn [foldl fullMatch].
  rewrite replace_first_self.
  destruct (decide (kw ++ js ":" ++ v = [])) as [Hq|_].
  { destruct Hkw as [-> | ->]; discriminate Hq. }
  destruct (decide (_ = [])) as [[=]|_].
  change (trim []) with (@nil N).
  destruct (decide (@nil N = [])); [|done].
  apply list_filter_iff. intros k. by rewrite Forall_singleton.
Qed.

(** X5. A query that is one token, [cat:] or [tag:] before a non-empty
    value without whitespace, returns in catalog order exactly the
    entries whose lowercased category equals the sanitized, lowercased
    value, or one of whose lowercased tags does.  Fuse is not asked. *)
Theorem FilteredResults_single_token (v : list N) (st : AppState) :
  v ≠ [] → Forall (λ c, is_ws c = false) v →
  FilteredResults (set_SearchQuery (js "cat:" ++ v) st)
  = filter (λ k, toLowerCase (Category k) = toLowerCase (sanitize v))
           (KaomojiList st)
  ∧ FilteredResults (set_SearchQuery (js "tag:" ++ v) st)
    = filter (λ k, Exists (λ t, toLowerCase t = toLowerCase (sanitize v))
                          (Tags k))
             (KaomojiList st).
Proof.
  intros Hne Hv. split.
  - change (js "cat:" ++ v) with (js "cat" ++ js ":" ++ v).
    rewrite (FilteredResults_one_token (js "cat") v st); [|by left|done..].
    apply list_filter_iff. intros k. unfold token_holds. cbn [type].
    by destruct (decide (js "cat" = js "cat")).
  - change (js "tag:" ++ v) with (js "tag" ++ js ":" ++ v).
    rewrite (FilteredResults_one_token (js "tag") v st); [|by right|done..].
    apply list_filter_iff. intros k. unfold token_holds. cbn [type].
    destruct (decide (js "tag" = js "cat")) as [[=]|_].
    by destruct (decide (js "tag" = js "tag")).
Qed.

(** ** Sanitizing and letter case *)

Lemma ascii_not_surrogate (c : N) :
  is_ascii c = true → is_high_surrogate c = false.
Proof.
  unfold is_ascii, is_high_surrogate. intros Hc%N.ltb_lt.
  apply andb_false_iff. left. apply N.leb_gt. lia.
Qed.

Lemma keep_code_point_ascii_lower (c : N) :
  is_ascii c = true →
  is_ascii (ascii_lower c) = true
  ∧ keep_code_point (ascii_lower c) = keep_code_point c.
Proof.
  unfold ascii_lower. intros Hc.
  destruct ((65 <=? c) && (c <=? 90)) eqn:Hupper; [|done].
  apply andb_true_iff in Hupper as [Hlo%N.leb_le Hhi%N.leb_le].
  assert (is_ascii (c + 32) = true) as Hc'.
  { unfold is_ascii. apply N.ltb_lt. lia. }
  split; [done|]. unfold keep_code_point. rewrite Hc, Hc'.
  assert (ascii_alnum c = true) as ->.
  { unfold ascii_alnum. rewrite !orb_true_iff, !andb_true_iff, !N.leb_le. lia. }
  assert (ascii_alnum (c + 32) = true) as ->.
  { unfold ascii_alnum. rewrite !orb_true_iff, !andb_true_iff, !N.leb_le. lia. }
  done.
Qed.

Lemma forallb_filter_ascii (p : N → bool) (v : list N) :
  Forall (λ c, is_ascii c = true) v → forallb is_ascii (List.filter p v) = true.
Proof.
  induction 1 as [|c v Hc _ IH]; [done|]. cbn.
  destruct (p c); [|done]. cbn. by rewrite Hc.
Qed.

(** On an ASCII value, sanitizing and lowercasing is lowercasing first and
    then keeping the class [[a-z0-9_-]]. *)
Lemma sanitize_lower_ascii (v : list N) :
  Forall (λ c, is_ascii c = true) v →
  toLowerCase (sanitize v) = List.filter keep_code_point (ascii_lower <$> v).
Proof.
  intros Hv. rewrite sanitize_no_surrogates.
  2:{ eapply Forall_impl; [exact Hv|]. apply ascii_not_surrogate. }
  unfold toLowerCase. rewrite forallb_filter_ascii by done.
  induction Hv as [|c v Hc _ IH]; [done|]. cbn.
  destruct (keep_code_point_ascii_lower c Hc) as [_ ->].
  destruct (keep_code_point c); cbn; by rewrite IH.
Qed.

(** X6. Token values are compared without regard to ASCII letter case:
    two one-token queries whose ASCII values differ only in case, such as
    [cat:JOY] and [cat:joy], return the same list. *)
Theorem token_value_case_insensitive (v1 v2 : list N) (st : AppState) :
  v1 ≠ [] → Forall (λ c, is_ws c = false) v1 →
  v2 ≠ [] → Forall (λ c, is_ws c = false) v2 →
  Forall (λ c, is_ascii c = true) v1 → Forall (λ c, is_ascii c = true) v2 →
  ascii_lower <$> v1 = ascii_lower <$> v2 →
  FilteredResults (set_SearchQuery (js "cat:" ++ v1) st)
  = FilteredResults (set_SearchQuery (js "cat:" ++ v2) st)
  ∧ FilteredResults (set_SearchQuery (js "tag:" ++ v1) st)
    = FilteredResults (set_SearchQuery (js "tag:" ++ v2) st).
Proof.
  intros Hne1 Hws1 Hne2 Hws2 Ha1 Ha2 Hcase.
  assert (toLowerCase (sanitize v1) = toLowerCase (sanitize v2)) as Hval.
  { by rewrite !sanitize_lower_ascii, Hcase. }
  change (js "cat:") with (js "cat" ++ js ":").
  change (js "tag:") with (js "tag" ++ js ":").
  rewrite <- !(assoc_L (++)).
  rewrite !FilteredResults_one_token by auto.
  split; apply list_filter_iff; intros k;
    unfold token_holds, sanitizedValue; cbn [type value]; by rewrite Hval.
Qed.

(** ** What the result list depends on *)

Lemma FilteredResults_ext (st1 st2 : AppState) :
  SearchQuery st1 = SearchQuery st2 → KaomojiList st1 = KaomojiList st2 →
  FilteredResults st1 = FilteredResults st2.
Proof. intros Hq Hl. unfold FilteredResults. by rewrite Hq, Hl. Qed.

(** ** Copying leaves the rest alone *)

Lemma CopyToClipboard_frame native_ok navigator_ok character index st :
  let st' := (CopyToClipboard native_ok navigator_ok character index st).1 in
  KaomojiList st' = KaomojiList st ∧ SearchQuery st' = SearchQuery st
  ∧ ShowAddModal st' = ShowAddModal st ∧ SelectedIndex st' = SelectedIndex st
  ∧ GridCols st' = GridCols st ∧ NewCharacter st' = NewCharacter st
  ∧ NewTags st' = NewTags st ∧ NewCategory st' = NewCategory st.
Proof.
  unfold CopyToClipboard, HandleCopySuccess, AddToRecents.
  destruct native_ok, navigator_ok; cbn -[js take filter list_find]; try done;
    by destruct (list_find _ _) as [[??]|].
Qed.

Lemma CopyToClipboard_log native_ok navigator_ok character index st :
  let log := (CopyToClipboard native_ok navigator_ok character index st).2 in
  head log = Some (InvokeCopyToClipboard character)
  ∧ (∀ e text, e ∈ log → clipboard_text e = Some text → text = character)
  ∧ InvokeCopyToClipboard character ∉ tail log.
Proof.
  unfold CopyToClipboard, HandleCopySuccess.
  destruct native_ok, navigator_ok; cbn -[js take filter list_find].
  all: split_and!; [done| |].
  all: try (intros e text; rewrite ?elem_of_cons, ?elem_of_nil;
            intros Hin Htext; by destruct_or!; simplify_eq/=).
  all: rewrite ?not_elem_of_cons; split_and!; try done.
  all: apply not_elem_of_nil.
Qed.

(** X8. A copy never touches the catalog, the query, the cursor, the
    column count, the modal or the form.  The primary write comes first
    and once, and every clipboard write, primary or fallback, carries the
    glyph that was asked for. *)
Theorem CopyToClipboard_touches_only_feedback (native_ok navigator_ok : bool)
    (character : list N) (index : Z) (st : AppState) :
  let st' := (CopyToClipboard native_ok navigator_ok character index st).1 in
  let log := (CopyToClipboard native_ok navigator_ok character index st).2 in
  (KaomojiList st' = KaomojiList st ∧ SearchQuery st' = SearchQuery st
   ∧ ShowAddModal st' = ShowAddModal st ∧ SelectedIndex st' = SelectedIndex st
   ∧ GridCols st' = GridCols st ∧ NewCharacter st' = NewCharacter st
   ∧ NewTags st' = NewTags st ∧ NewCategory st' = NewCategory st)
  ∧ FilteredResults st' = FilteredResults st
  ∧ head log = Some (InvokeCopyToClipboard character)
  ∧ (∀ e text, e ∈ log → clipboard_text e = Some text → text = character)
  ∧ InvokeCopyToClipboard character ∉ tail log.
Proof.
  intros st' log.
  pose proof (CopyToClipboard_frame native_ok navigator_ok character index st)
    as Hframe.
  pose proof (CopyToClipboard_log native_ok navigator_ok character index st)
    as Hlog.
  split; [exact Hframe|]. split; [|exact Hlog].
  apply FilteredResults_ext; by destruct Hframe as (? & ? & _).
Qed.

(** ** The clamp effect settles *)

Lemma SelectedIndex_clamp_in_range (st : AppState) :
  (0 ≤ SelectedIndex st < Z.of_nat (length (FilteredResults st)))%Z →
  SelectedIndex_clamp_effect st = st.
Proof.
  intros Hrange. unfold SelectedIndex_clamp_effect.
  destruct (Z.eqb_spec (Z.of_nat (length (FilteredResults st))) 0); [lia|].
  by destruct (Z.geb_spec (SelectedIndex st)
                 (Z.of_nat (length (FilteredResults st)))); [lia|].
Qed.

(** X9. Running the clamp effect a second time changes nothing, whatever
    the state, so the effect cannot retrigger itself for ever; and it does
    nothing at all when the cursor is already on a result. *)
Theorem SelectedIndex_clamp_settles (st : AppState) :
  SelectedIndex_clamp_effect (SelectedIndex_clamp_effect st)
  = SelectedIndex_clamp_effect st
  ∧ ((0 ≤ SelectedIndex st < Z.of_nat (length (FilteredResults st)))%Z →
     SelectedIndex_clamp_effect st = st).
Proof.
  split; [|apply SelectedIndex_clamp_in_range].
  unfold SelectedIndex_clamp_effect.
  remember (Z.of_nat (length (FilteredResults st))) as count eqn:Hcount.
  destruct (Z.eqb_spec count 0) as [Hz|Hnz].
  - rewrite FilteredResults_set_SelectedIndex, <- Hcount.
    by destruct (Z.eqb_spec count 0).
  - destruct (Z.geb_spec (SelectedIndex st) count) as [Hge|Hlt].
    + rewrite FilteredResults_set_SelectedIndex, <- Hcount.
      destruct (Z.eqb_spec count 0); [done|].
      cbn [SelectedIndex set_SelectedIndex].
      by destruct (Z.geb_spec (count - 1) count); [lia|].
    + rewrite <- Hcount. destruct (Z.eqb_spec count 0); [done|].
      by destruct (Z.geb_spec (SelectedIndex st) count); [lia|].
Qed.

(** ** More on the keyboard *)

(** Resolve the comparisons of a known key with the key names. *)
Ltac resolve_key :=
  repeat match goal with
    | |- context [decide (js ?a = js ?b)] =>
        destruct (decide (js a = js b)) as [?Hsame|?Hother];
        [try discriminate|try done]
    end.

Lemma CopyToClipboard_success native_ok navigator_ok character index st :
  native_ok = true ∨ navigator_ok = true →
  let st' := (CopyToClipboard native_ok navigator_ok character index st).1 in
  LastCopied st' = character ∧ LastCopiedIndex st' = index.
Proof.
  unfold CopyToClipboard, HandleCopySuccess, AddToRecents.
  destruct native_ok, navigator_ok; cbn -[js take filter list_find];
    intros [?|?]; try done; by destruct (list_find _ _) as [[??]|].
Qed.

(** X10. ArrowDown and ArrowUp, with the modal closed, the focus outside a
    text field, the cursor on a result and a column count that is not
    negative: the cursor moves by the column count but stops at the last
    and at the first result; it stays on a result, never wraps around,
    and nothing but the cursor changes. *)
Theorem vertical_move_clamped (native_ok navigator_ok : bool)
    (event : KeyboardEvent) (st : AppState) :
  key event = js "ArrowDown" ∨ key event = js "ArrowUp" →
  ShowAddModal st = false → isTyping event = false →
  let len := Z.of_nat (length (FilteredResults st)) in
  let st' := (HandleKeyDown native_ok navigator_ok event st).1 in
  (0 ≤ SelectedIndex st < len)%Z → (0 ≤ GridCols st)%Z →
  st' = set_SelectedIndex (SelectedIndex st') st
  ∧ (0 ≤ SelectedIndex st' < len)%Z
  ∧ (key event = js "ArrowDown" →
     SelectedIndex st' = (SelectedIndex st + GridCols st) `min` (len - 1)
     ∧ SelectedIndex st ≤ SelectedIndex st')%Z
  ∧ (key event = js "ArrowUp" →
     SelectedIndex st' = (SelectedIndex st - GridCols st) `max` 0
     ∧ SelectedIndex st' ≤ SelectedIndex st)%Z.
Proof.
  intros Hkey Hmodal Htyping len st' Hcur Hcols. subst st'.
  unfold HandleKeyDown. rewrite Hmodal, Htyping. cbn [andb]. fold len.
  destruct (Z.eqb_spec len 0) as [|_]; [lia|].
  destruct Hkey as [Hkey | Hkey]; rewrite Hkey; resolve_key;
    cbn [fst SelectedIndex set_SelectedIndex];
    (split; [done|]); (split; [lia|]); split; intros; try discriminate; lia.
Qed.

(** X11. ArrowRight followed by ArrowLeft, and ArrowLeft followed by
    ArrowRight, bring the state back to where it was, for a cursor on a
    result, the modal closed and the focus outside a text field. *)
Theorem horizontal_moves_cancel (native_ok navigator_ok : bool)
    (right left : KeyboardEvent) (st : AppState) :
  key right = js "ArrowRight" → key left = js "ArrowLeft" →
  isTyping right = false → isTyping left = false →
  ShowAddModal st = false →
  (0 ≤ SelectedIndex st < Z.of_nat (length (FilteredResults st)))%Z →
  (HandleKeyDown native_ok navigator_ok left
     (HandleKeyDown native_ok navigator_ok right st).1).1 = st
  ∧ (HandleKeyDown native_ok navigator_ok right
       (HandleKeyDown native_ok navigator_ok left st).1).1 = st.
Proof.
  intros Hright Hleft Htr Htl Hmodal Hcur.
  remember (Z.of_nat (length (FilteredResults st))) as len eqn:Hlen.
  assert (∀ i, HandleKeyDown native_ok navigator_ok right
                 (set_SelectedIndex i st)
               = (set_SelectedIndex (Z.rem (i + 1) len) st,
                  [PreventDefault; ScrollToSelected])) as Hr.
  { intros i. unfold HandleKeyDown. cbn [ShowAddModal set_SelectedIndex].
    rewrite Hmodal, Htr, Hright, FilteredResults_set_SelectedIndex, <- Hlen.
    cbn [andb]. destruct (Z.eqb_spec len 0) as [|_]; [lia|].
    by resolve_key. }
  assert (∀ i, HandleKeyDown native_ok navigator_ok left
                 (set_SelectedIndex i st)
               = (set_SelectedIndex (Z.rem (i - 1 + len) len) st,
                  [PreventDefault; ScrollToSelected])) as Hl.
  { intros i. unfold HandleKeyDown. cbn [ShowAddModal set_SelectedIndex].
    rewrite Hmodal, Htl, Hleft, FilteredResults_set_SelectedIndex, <- Hlen.
    cbn [andb]. destruct (Z.eqb_spec len 0) as [|_]; [lia|].
    by resolve_key. }
  assert (st = set_SelectedIndex (SelectedIndex st) st) as Hst
    by (by destruct st).
  rewrite Hst at 1 3. rewrite Hr, Hl. cbn [fst]. rewrite Hr, Hl. cbn [fst].
  rewrite !Z.rem_mod_nonneg by
    (try lia; rewrite ?Z.rem_mod_nonneg by lia;
     pose proof (Z.mod_pos_bound (SelectedIndex st + 1) len);
     pose proof (Z.mod_pos_bound (SelectedIndex st - 1 + len) len); lia).
  assert (((SelectedIndex st + 1) `mod` len - 1 + len) `mod` len
          = SelectedIndex st)%Z as ->.
  { destruct (decide (SelectedIndex st + 1 = len)%Z) as [Hlast|Hlast].
    - rewrite Hlast, Z_mod_same_full.
      replace (0 - 1 + len)%Z with (len - 1)%Z by lia.
      rewrite Z.mod_small; lia.
    - rewrite (Z.mod_small (SelectedIndex st + 1)) by lia.
      replace (SelectedIndex st + 1 - 1 + len)%Z
        with (SelectedIndex st + 1 * len)%Z by lia.
      rewrite Z_mod_plus_full. apply Z.mod_small. lia. }
  assert (((SelectedIndex st - 1 + len) `mod` len + 1) `mod` len
          = SelectedIndex st)%Z as ->.
  { destruct (decide (SelectedIndex st = 0)%Z) as [Hfirst|Hfirst].
    - rewrite Hfirst. replace (0 - 1 + len)%Z with (len - 1)%Z by lia.
      rewrite (Z.mod_small (len - 1)) by lia.
      replace (len - 1 + 1)%Z with len by lia. apply Z_mod_same_full.
    - replace (SelectedIndex st - 1 + len)%Z
        with (SelectedIndex st - 1 + 1 * len)%Z by lia.
      rewrite Z_mod_plus_full, (Z.mod_small (SelectedIndex st - 1)) by lia.
      rewrite Z.mod_small; lia. }
  by rewrite <- Hst.
Qed.

(** X12. While the focus is in an [INPUT] or a [TEXTAREA] and the modal is
    closed, the four arrow keys are left to the text field: the state is
    unchanged and [preventDefault] is not called.  Any other key is
    handled as if the focus were elsewhere. *)
Theorem HandleKeyDown_while_typing (native_ok navigator_ok : bool)
    (event : KeyboardEvent) (st : AppState) :
  isTyping event = true → ShowAddModal st = false →
  (key event ∈ navKeys →
   HandleKeyDown native_ok navigator_ok event st = (st, []))
  ∧ (key event ∉ navKeys →
     HandleKeyDown native_ok navigator_ok event st
     = HandleKeyDown native_ok navigator_ok
         {| key := key event; target := None |} st).
Proof.
  intros Htyping Hmodal. unfold HandleKeyDown.
  rewrite Hmodal, Htyping. cbn [key isTyping target andb]. split.
  - intros Hnav. by rewrite bool_decide_eq_true_2.
  - intros Hnav. by rewrite bool_decide_eq_false_2.
Qed.

(** X13. Enter, with the modal closed: when the cursor is on a result, the
    handler calls [preventDefault] and then copies the glyph of that
    result with the cursor as its index, so the first clipboard write
    carries that glyph and a copy that succeeds sets [LastCopied] and
    [LastCopiedIndex] to them; the cursor and the result list stay.
    When the cursor is off the list, only [preventDefault] happens. *)
Theorem Enter_copies_selected (native_ok navigator_ok : bool)
    (event : KeyboardEvent) (st : AppState) :
  key event = js "Enter" → ShowAddModal st = false →
  FilteredResults st ≠ [] →
  let results := FilteredResults st in
  let st' := (HandleKeyDown native_ok navigator_ok event st).1 in
  let log := (HandleKeyDown native_ok navigator_ok event st).2 in
  (∀ item, index_at results (SelectedIndex st) = Some item →
     log = PreventDefault
           :: (CopyToClipboard native_ok navigator_ok (Character item)
                               (SelectedIndex st) st).2
     ∧ log !! 1%nat = Some (InvokeCopyToClipboard (Character item))
     ∧ SelectedIndex st' = SelectedIndex st
     ∧ FilteredResults st' = results
     ∧ (native_ok = true ∨ navigator_ok = true →
        LastCopied st' = Character item
        ∧ LastCopiedIndex st' = SelectedIndex st))
  ∧ (index_at results (SelectedIndex st) = None →
     st' = st ∧ log = [PreventDefault]).
Proof.
  intros Hkey Hmodal Hresults results st' log. subst st' log.
  unfold HandleKeyDown. rewrite Hmodal, Hkey.
  replace (bool_decide (js "Enter" ∈ navKeys)) with false by done.
  replace (bool_decide (js "Enter" ∈ handledKeys)) with true by done.
  rewrite andb_false_r.
  destruct (Z.eqb_spec (Z.of_nat (length (FilteredResults st))) 0) as [Hz|_].
  { destruct (FilteredResults st); [done|cbn in Hz; lia]. }
  resolve_key. fold results. split.
  - intros item ->.
    pose proof (CopyToClipboard_frame native_ok navigator_ok (Character item)
                  (SelectedIndex st) st) as (Hcat & Hquery & _ & Hcur & _).
    pose proof (CopyToClipboard_log native_ok navigator_ok (Character item)
                  (SelectedIndex st) st) as (Hhead & _).
    pose proof (CopyToClipboard_success native_ok navigator_ok (Character item)
                  (SelectedIndex st) st) as Hsuccess.
    destruct (CopyToClipboard native_ok navigator_ok (Character item)
                (SelectedIndex st) st) as [st1 log1].
    cbn [fst snd] in *. split_and!; try done.
    + rewrite head_lookup in Hhead. exact Hhead.
    + by apply FilteredResults_ext.
  - by intros ->.
Qed.

(** X14. Escape, with the modal closed and at least one result: the query
    is emptied, nothing else changes, and the next result list is the
    whole catalog. *)
Theorem Escape_clears_query (native_ok navigator_ok : bool)
    (event : KeyboardEvent) (st : AppState) :
  key event = js "Escape" → ShowAddModal st = false →
  FilteredResults st ≠ [] →
  HandleKeyDown native_ok navigator_ok event st
  = (set_SearchQuery [] st, [PreventDefault])
  ∧ FilteredResults (HandleKeyDown native_ok navigator_ok event st).1
    = KaomojiList st.
Proof.
  intros Hkey Hmodal Hresults.
  assert (HandleKeyDown native_ok navigator_ok event st
          = (set_SearchQuery [] st, [PreventDefault])) as Hstep.
  { unfold HandleKeyDown. rewrite Hmodal, Hkey.
    replace (bool_decide (js "Escape" ∈ navKeys)) with false by done.
    replace (bool_decide (js "Escape" ∈ handledKeys)) with true by done.
    rewrite andb_false_r.
    destruct (Z.eqb_spec (Z.of_nat (length (FilteredResults st))) 0) as [Hz|_].
    { destruct (FilteredResults st); [done|cbn in Hz; lia]. }
    by resolve_key. }
  split; [done|]. by rewrite Hstep.
Qed.

(** X15. Whatever the key and the state, the keyboard handler changes
    neither the catalog nor the column count nor the form; only Enter can
    change the recency list and the copy feedback, only Escape the query
    and the modal, and only an arrow key the cursor. *)
Theorem HandleKeyDown_frame (native_ok navigator_ok : bool)
    (event : KeyboardEvent) (st : AppState) :
  let st' := (HandleKeyDown native_ok navigator_ok event st).1 in
  (KaomojiList st' = KaomojiList st ∧ GridCols st' = GridCols st
   ∧ NewCharacter st' = NewCharacter st ∧ NewTags st' = NewTags st
   ∧ NewCategory st' = NewCategory st)
  ∧ (key event ≠ js "Enter" →
     RecentKaomojis st' = RecentKaomojis st ∧ LastCopied st' = LastCopied st
     ∧ LastCopiedIndex st' = LastCopiedIndex st ∧ ShowToast st' = ShowToast st)
  ∧ (key event ≠ js "Escape" →
     SearchQuery st' = SearchQuery st ∧ ShowAddModal st' = ShowAddModal st)
  ∧ (key event ∉ navKeys → SelectedIndex st' = SelectedIndex st).
Proof.
  intros st'. subst st'. unfold HandleKeyDown.
  destruct (ShowAddModal st) eqn:Hmodal.
  { destruct (decide (key event = js "Escape")); cbn; by split_and!. }
  destruct (isTyping event && bool_decide (key event ∈ navKeys)).
  { cbn. by split_and!. }
  destruct (Z.of_nat (length (FilteredResults st)) =? 0)%Z.
  { cbn. by split_and!. }
  unfold navKeys. rewrite !not_elem_of_cons.
  repeat case_decide; cbn [fst];
    try (by split_and!; try done; intros (?&?&?&?&?)).
  all: destruct (index_at _ _) as [item|]; [|by split_and!].
  all: pose proof (CopyToClipboard_frame native_ok navigator_ok
                     (Character item) (SelectedIndex st) st)
         as (?&?&?&?&?&?&?&?).
  all: destruct (CopyToClipboard _ _ _ _ _) as [st1 log1]; cbn [fst] in *.
  all: split_and!; try done; intros ?; try contradiction.
  all: split; congruence.
Qed.

(** X16. A click on result [i] puts the cursor on [i] whether or not the
    copy succeeds, and asks the clipboard for the glyph of that result
    first. *)
Theorem click_card_selects (native_ok navigator_ok : bool) (i : nat)
    (st : AppState) (item : KaomojiEntry) :
  FilteredResults st !! i = Some item →
  let st' := (click_card native_ok navigator_ok i st).1 in
  let log := (click_card native_ok navigator_ok i st).2 in
  SelectedIndex st' = Z.of_nat i
  ∧ head log = Some (InvokeCopyToClipboard (Character item))
  ∧ FilteredResults st' = FilteredResults st
  ∧ (native_ok = true ∨ navigator_ok = true →
     LastCopied st' = Character item ∧ LastCopiedIndex st' = Z.of_nat i).
Proof.
  intros Hitem st' log. subst st' log. unfold click_card. rewrite Hitem.
  pose proof (CopyToClipboard_frame native_ok navigator_ok (Character item)
                (Z.of_nat i) (set_SelectedIndex (Z.of_nat i) st))
    as (Hcat & Hquery & _ & Hcur & _).
  pose proof (CopyToClipboard_log native_ok navigator_ok (Character item)
                (Z.of_nat i) (set_SelectedIndex (Z.of_nat i) st))
    as (Hhead & _).
  pose proof (CopyToClipboard_success native_ok navigator_ok (Character item)
                (Z.of_nat i) (set_SelectedIndex (Z.of_nat i) st)) as Hsuccess.
  split_and!; try done. by apply FilteredResults_ext.
Qed.

(** ** The catalog keeps its glyphs *)

Lemma upsert_cases (catalog : list KaomojiEntry) (entry : KaomojiEntry) :
  (∃ i old, catalog !! i = Some old ∧ Character old = Character entry
            ∧ (∀ j k, catalog !! j = Some k → (j < i)%nat →
                      Character k ≠ Character entry)
            ∧ upsert catalog entry = <[i:=entry]> catalog)
  ∨ (Forall (λ k, Character k ≠ Character entry) catalog
     ∧ upsert catalog entry = catalog ++ [entry]).
Proof.
  destruct (list_find (λ k, Character k = Character entry) catalog)
    as [[i old]|] eqn:Hfind.
  - left. exists i, old. rewrite (upsert_found _ _ _ _ Hfind).
    by apply list_find_Some in Hfind as (? & ? & ?).
  - right. unfold upsert. rewrite Hfind. split; [|done].
    by apply list_find_None in Hfind.
Qed.

Lemma upsert_glyph_list (catalog : list KaomojiEntry) (entry : KaomojiEntry) :
  Character <$> upsert catalog entry
  = if decide (Character entry ∈ Character <$> catalog)
    then Character <$> catalog
    else (Character <$> catalog) ++ [Character entry].
Proof.
  destruct (upsert_cases catalog entry)
    as [(i & old & Hi & Hold & _ & ->)|[Hfresh ->]].
  - rewrite decide_True.
    + rewrite list_fmap_insert. apply list_insert_id.
      by rewrite list_lookup_fmap, Hi, <- Hold.
    + rewrite <- Hold. apply list_elem_of_fmap. exists old. split; [done|].
      by eapply list_elem_of_lookup_2.
  - rewrite decide_False; [by rewrite fmap_app|].
    intros (k & Hk & Hin)%list_elem_of_fmap.
    by apply (proj1 (Forall_forall _ _) Hfresh k).
Qed.

(** X17. An upsert never removes or reorders a glyph: when the glyph of
    the entry is in the catalog the list of glyphs is unchanged, otherwise
    the new glyph is added at the end.  So a catalog without repeated
    glyphs stays without repeated glyphs, and the glyph of the entry is in
    the catalog afterwards. *)
Theorem upsert_keeps_glyphs (catalog : list KaomojiEntry)
    (entry : KaomojiEntry) :
  Character <$> upsert catalog entry
  = (if decide (Character entry ∈ Character <$> catalog)
     then Character <$> catalog
     else (Character <$> catalog) ++ [Character entry])
  ∧ Character entry ∈ Character <$> upsert catalog entry
  ∧ (∀ g, g ∈ Character <$> catalog → g ∈ Character <$> upsert catalog entry)
  ∧ (NoDup (Character <$> catalog) →
     NoDup (Character <$> upsert catalog entry)).
Proof.
  rewrite upsert_glyph_list.
  destruct (decide (Character entry ∈ Character <$> catalog)) as [Hin|Hout].
  - by split_and!.
  - split_and!; [done| | |].
    + apply elem_of_app. right. by apply list_elem_of_singleton.
    + intros g Hg. apply elem_of_app. by left.
    + intros Hnd. apply NoDup_app. split_and!; [done| |apply NoDup_singleton].
      intros g Hg ->%list_elem_of_singleton. done.
Qed.

Lemma list_find_upsert (catalog : list KaomojiEntry) (entry : KaomojiEntry) :
  ∃ i, list_find (λ k, Character k = Character entry) (upsert catalog entry)
       = Some (i, entry).
Proof.
  destruct (upsert_cases catalog entry)
    as [(i & old & Hi & Hold & Hfirst & ->)|[Hfresh ->]].
  - exists i. apply list_find_Some. split_and!; [|done|].
    + apply list_lookup_insert_eq. by eapply lookup_lt_Some.
    + intros j k Hj Hlt. rewrite list_lookup_insert_ne in Hj by lia.
      by eapply Hfirst.
  - exists (length catalog). apply list_find_Some. split_and!; [|done|].
    + by rewrite lookup_app_r, Nat.sub_diag by lia.
    + intros j k Hj Hlt. rewrite lookup_app_l in Hj by done.
      apply (proj1 (Forall_forall _ _) Hfresh k).
      by eapply list_elem_of_lookup_2.
Qed.

(** X18. After an upsert, looking the glyph up in the catalog, as a copy
    does, finds the entry just written; and writing the same entry a
    second time changes nothing. *)
Theorem upsert_then_find (catalog : list KaomojiEntry) (entry : KaomojiEntry) :
  snd <$> list_find (λ k, Character k = Character entry)
                    (upsert catalog entry) = Some entry
  ∧ upsert (upsert catalog entry) entry = upsert catalog entry.
Proof.
  destruct (list_find_upsert catalog entry) as [i Hfind]. split.
  - by rewrite Hfind.
  - rewrite (upsert_found _ _ _ _ Hfind). apply list_insert_id.
    by apply list_find_Some in Hfind as (? & _).
Qed.

(** ** The start-up merge *)

Lemma filter_none {A} (P : A → Prop) `{!∀ x, Decision (P x)} (l : list A) :
  Forall (λ x, ¬ P x) l → filter P l = [].
Proof.
  induction 1 as [|x l Hx _ IH]; [done|].
  rewrite filter_cons. by destruct (decide (P x)).
Qed.

Lemma merge_glyph_known (catalog userItems : list KaomojiEntry) k :
  k ∈ userItems →
  Character k ∈ Character <$> merge_user_items catalog userItems.
Proof.
  intros Hk. rewrite merge_user_items_eq, fmap_app, elem_of_app.
  destruct (decide (Character k ∈ Character <$> catalog)); [by left|right].
  apply list_elem_of_fmap. exists k. split; [done|].
  by apply list_elem_of_filter.
Qed.

(** X19. Merging the same loaded list a second time adds nothing.  After a
    merge every loaded glyph is in the catalog.  If neither the catalog
    nor the loaded list repeats a glyph, the merged catalog does not
    either. *)
Theorem merge_user_items_idempotent (catalog userItems : list KaomojiEntry) :
  merge_user_items (merge_user_items catalog userItems) userItems
  = merge_user_items catalog userItems
  ∧ (∀ k, k ∈ userItems →
          Character k ∈ Character <$> merge_user_items catalog userItems)
  ∧ (NoDup (Character <$> catalog) → NoDup (Character <$> userItems) →
     NoDup (Character <$> merge_user_items catalog userItems)).
Proof.
  split_and!.
  - rewrite (merge_user_items_eq (merge_user_items catalog userItems)).
    rewrite filter_none; [apply app_nil_r|].
    apply Forall_forall. intros k Hk Hnew.
    by apply Hnew, merge_glyph_known.
  - intros k. apply merge_glyph_known.
  - intros Hcat Huser. rewrite merge_user_items_eq, fmap_app.
    apply NoDup_app. split_and!; [done| |].
    + intros g Hg (k & -> & Hk)%list_elem_of_fmap.
      by apply list_elem_of_filter in Hk as [Hnew _].
    + eapply sublist_NoDup; [exact Huser|].
      apply fmap_sublist, sublist_filter.
Qed.

(** ** The entry built from the form *)

Lemma split_pieces (sep : N) (s : list N) :
  Forall (λ piece, Forall (λ c, c ∈ s ∧ c ≠ sep) piece) (split sep s).
Proof.
  induction s as [|c s IH]; cbn [split].
  - by repeat constructor.
  - assert (Forall (λ piece, Forall (λ d, d ∈ c :: s ∧ d ≠ sep) piece)
                   (split sep s)) as IH'.
    { eapply Forall_impl; [exact IH|]. intros piece Hpiece.
      eapply Forall_impl; [exact Hpiece|]. intros d [Hd ?].
      split; [apply elem_of_cons; by right|done]. }
    destruct (N.eqb_spec c sep) as [->|Hc].
    + constructor; [constructor|exact IH'].
    + destruct (split sep s) as [|piece pieces].
      * constructor; [|constructor]. constructor; [|constructor].
        split; [apply elem_of_cons; by left|done].
      * apply Forall_cons in IH' as [Hpiece Hpieces].
        constructor; [|done]. constructor; [|done].
        split; [apply elem_of_cons; by left|done].
Qed.

(** X20. The entry that [SubmitNewKaomoji] builds from the form: its glyph
    has no whitespace at either end; each of its tags is non-empty, has no
    whitespace at either end and no comma, and is made of characters of
    the tags field; its category is the selected one.  A tags field of
    only whitespace and commas gives no tags. *)
Theorem form_entry_clean (st : AppState) :
  let entry := form_entry st in
  trim (Character entry) = Character entry
  ∧ Forall (λ t, t ≠ [] ∧ trim t = t ∧ (44 ∉ t)
                 ∧ ∀ c, c ∈ t → c ∈ NewTags st)
           (Tags entry)
  ∧ Category entry = NewCategory st
  ∧ (Forall (λ c, is_ws c = true ∨ c = 44) (NewTags st) → Tags entry = []).
Proof.
  intros entry. subst entry. unfold form_entry. cbn [Character Tags Category].
  split_and!; [apply trim_idemp| |done|].
  - apply Forall_forall. intros t [Hne Ht]%list_elem_of_filter.
    apply list_elem_of_fmap in Ht as (piece & -> & Hpiece).
    pose proof (proj1 (Forall_forall _ _) (split_pieces 44 (NewTags st))
                  piece Hpiece) as Hchars.
    split_and!; [done|apply trim_idemp| |].
    + intros Hcomma%trim_elem_of.
      by apply (proj1 (Forall_forall _ _) Hchars) in Hcomma as [_ ?].
    + intros c Hc%trim_elem_of.
      by apply (proj1 (Forall_forall _ _) Hchars) in Hc as [? _].
  - intros Hblank. apply filter_none, Forall_forall.
    intros t (piece & -> & Hpiece)%list_elem_of_fmap Hne. apply Hne.
    apply trim_nil_iff, Forall_forall. intros c Hc.
    pose proof (proj1 (Forall_forall _ _) (split_pieces 44 (NewTags st))
                  piece Hpiece) as Hchars.
    apply (proj1 (Forall_forall _ _) Hchars) in Hc as [Hc Hsep].
    by apply (proj1 (Forall_forall _ _) Hblank) in Hc as [?|?].
Qed.

(** X21. [SubmitNewKaomoji]: when the glyph field is empty or all
    whitespace nothing happens, no save is attempted whatever the store
    would answer.  Otherwise the save is attempted once with the entry of
    the form, and when it resolves the catalog is the upserted one, the
    modal is closed, the glyph and tags fields are emptied and the
    category, the query, the cursor, the recency list and the copy
    feedback stay as they were. *)
Theorem SubmitNewKaomoji_outcomes (saved : InvokeResult unit) (st : AppState) :
  (Forall (λ c, is_ws c = true) (NewCharacter st) →
   SubmitNewKaomoji saved st = (st, []))
  ∧ (¬ Forall (λ c, is_ws c = true) (NewCharacter st) →
     head (SubmitNewKaomoji saved st).2
     = Some (InvokeSaveKaomoji (form_entry st))
     ∧ Character (form_entry st) ≠ []
     ∧ let st' := (SubmitNewKaomoji (Resolved ()) st).1 in
       (SubmitNewKaomoji (Resolved ()) st).2
       = [InvokeSaveKaomoji (form_entry st)]
       ∧ KaomojiList st' = upsert (KaomojiList st) (form_entry st)
       ∧ ShowAddModal st' = false
       ∧ NewCharacter st' = [] ∧ NewTags st' = []
       ∧ NewCategory st' = NewCategory st
       ∧ SearchQuery st' = SearchQuery st
       ∧ SelectedIndex st' = SelectedIndex st
       ∧ RecentKaomojis st' = RecentKaomojis st
       ∧ LastCopied st' = LastCopied st
       ∧ LastCopiedIndex st' = LastCopiedIndex st
       ∧ ShowToast st' = ShowToast st ∧ GridCols st' = GridCols st).
Proof.
  unfold SubmitNewKaomoji. split.
  - intros Hblank%trim_nil_iff.
    by destruct (decide (trim (NewCharacter st) = [])).
  - intros Hblank.
    destruct (decide (trim (NewCharacter st) = [])) as [Htrim|Htrim].
    { by apply trim_nil_iff in Htrim. }
    split; [by destruct saved|]. split; [done|]. by cbn.
Qed.

(** ** More on the recency list *)

Lemma length_filter_other_glyph (g : list N) (l : list KaomojiEntry) :
  NoDup (Character <$> l) → g ∈ Character <$> l →
  S (length (filter (λ k, Character k ≠ g) l)) = length l.
Proof.
  induction l as [|k l IH]; cbn [fmap list_fmap].
  - by intros _ ?%elem_of_nil.
  - intros [Hk Hnd]%NoDup_cons Hg. rewrite filter_cons.
    destruct (decide (Character k ≠ g)) as [Hne|Heq].
    + cbn [length]. f_equal. apply IH; [done|].
      apply elem_of_cons in Hg as [?|?]; [congruence|done].
    + apply dec_stable in Heq. subst g. cbn [length]. f_equal.
      f_equal. apply filter_other_glyph_id, Forall_forall.
      intros k' Hk' Heq. apply Hk. rewrite <- Heq.
      apply list_elem_of_fmap. by exists k'.
Qed.

(** X22. Recording the same entry twice in a row is the same as recording
    it once.  Recording an entry whose glyph is new to a full list of 8
    puts it in front and drops the oldest.  Recording an entry whose glyph
    is already in a list without repeated glyphs of at most 8 moves it to
    the front and keeps the length. *)
Theorem AddToRecents_edges (entry : KaomojiEntry) (st : AppState) :
  AddToRecents entry (AddToRecents entry st) = AddToRecents entry st
  ∧ (Character entry ∉ Character <$> RecentKaomojis st →
     RecentKaomojis (AddToRecents entry st)
     = entry :: take 7 (RecentKaomojis st))
  ∧ (Character entry ∈ Character <$> RecentKaomojis st →
     NoDup (Character <$> RecentKaomojis st) →
     (length (RecentKaomojis st) ≤ 8)%nat →
     RecentKaomojis (AddToRecents entry st)
     = entry :: filter (λ k, Character k ≠ Character entry)
                       (RecentKaomojis st)
     ∧ length (RecentKaomojis (AddToRecents entry st))
       = length (RecentKaomojis st)).
Proof.
  split_and!.
  - unfold AddToRecents. cbn [RecentKaomojis set_RecentKaomojis take].
    rewrite filter_cons.
    destruct (decide (Character entry ≠ Character entry)); [done|].
    rewrite filter_other_glyph_id
      by apply Forall_take, Forall_filter_other_glyph.
    rewrite take_take. by destruct st.
  - intros Hnew. rewrite RecentKaomojis_AddToRecents. cbn [take].
    rewrite filter_other_glyph_id; [done|]. apply Forall_forall.
    intros k Hk Heq. apply Hnew. rewrite <- Heq.
    apply list_elem_of_fmap. by exists k.
  - intros Hin Hnd Hlen. rewrite RecentKaomojis_AddToRecents.
    pose proof (length_filter_other_glyph _ _ Hnd Hin) as Hfilter.
    rewrite take_ge by (cbn [length]; lia). split; [done|].
    cbn [length]. lia.
Qed.

(** ** Invariants of a session *)

Lemma CopyToClipboard_recents native_ok navigator_ok character index st :
  let st' := (CopyToClipboard native_ok navigator_ok character index st).1 in
  (RecentKaomojis st' = RecentKaomojis st
   ∧ LastCopiedIndex st' = LastCopiedIndex st)
  ∨ (LastCopiedIndex st' = index
     ∧ (RecentKaomojis st' = RecentKaomojis st
        ∨ ∃ i entry,
            list_find (λ k, Character k = character) (KaomojiList st)
            = Some (i, entry)
            ∧ RecentKaomojis st'
              = RecentKaomojis (AddToRecents entry st))).
Proof.
  unfold CopyToClipboard, HandleCopySuccess.
  destruct native_ok, navigator_ok; cbn -[js list_find AddToRecents];
    try (by left);
    right; (split; [done|]);
    destruct (list_find _ _) as [[i entry]|]; try (by left);
    right; by exists i, entry.
Qed.

Lemma CopyToClipboard_invariant native_ok navigator_ok character index st :
  (-1 ≤ index)%Z → session_invariant st →
  session_invariant
    (CopyToClipboard native_ok navigator_ok character index st).1.
Proof.
  intros Hindex (Hnd & Hlen & Hsub & Hcur & Hcols & Hidx).
  pose proof (CopyToClipboard_frame native_ok navigator_ok character index st)
    as (Hcat & _ & _ & Hcur' & Hcols' & _).
  pose proof (CopyToClipboard_recents native_ok navigator_ok character
                index st) as Hrec.
  unfold session_invariant. rewrite Hcat, Hcur', Hcols'.
  destruct Hrec as [[-> ->]|[-> [->|(i & entry & Hfind & ->)]]];
    [by split_and!..|].
  split_and!; [by apply AddToRecents_NoDup|apply AddToRecents_length| |done..].
  intros g. rewrite RecentKaomojis_AddToRecents.
  intros (k & -> & Hk)%list_elem_of_fmap.
  apply list_find_Some in Hfind as (Hi & _ & _).
  assert (k ∈ entry :: filter (λ k, Character k ≠ Character entry)
                              (RecentKaomojis st)) as Hk'.
  { eapply elem_of_sublist; [exact Hk|apply sublist_take]. }
  apply elem_of_cons in Hk' as [->|Hk'].
  - apply list_elem_of_fmap. exists entry. split; [done|].
    by eapply list_elem_of_lookup_2.
  - apply Hsub, list_elem_of_fmap. exists k. split; [done|].
    by apply list_elem_of_filter in Hk' as [_ ?].
Qed.

Lemma step_invariant (a : Action) (st : AppState) :
  session_invariant st → session_invariant (step a st).
Proof.
  intros Hinv. pose proof Hinv as (Hnd & Hlen & Hsub & Hcur & Hcols & Hidx).
  destruct a as [native_ok navigator_ok event|native_ok navigator_ok i
                |native_ok navigator_ok i|saved|loaded measured|measured|
                |query|character tags category|shown| |]; cbn [step].
  - pose proof (HandleKeyDown_cursor_nonneg native_ok navigator_ok event st
                  Hcur ltac:(lia)) as Hcur'.
    revert Hcur'. unfold HandleKeyDown.
    destruct (ShowAddModal st).
    { by destruct (decide (key event = js "Escape")). }
    destruct (isTyping event && bool_decide (key event ∈ navKeys)); [done|].
    destruct (Z.of_nat (length (FilteredResults st)) =? 0)%Z; [done|].
    repeat case_decide; cbn [fst]; intros Hcur';
      try (by unfold session_invariant; split_and!).
    all: destruct (index_at _ _) as [item|]; [|done].
    all: pose proof (CopyToClipboard_invariant native_ok navigator_ok
                       (Character item) (SelectedIndex st) st
                       ltac:(lia) Hinv) as Hcopy.
    all: by destruct (CopyToClipboard _ _ _ _ _).
  - unfold click_card. destruct (_ !! i) as [item|]; [|done].
    apply CopyToClipboard_invariant; [lia|].
    unfold session_invariant. cbn. split_and!; try done. lia.
  - unfold click_recent. destruct (_ !! i) as [recent|]; [|done].
    by apply CopyToClipboard_invariant.
  - unfold SubmitNewKaomoji.
    destruct (decide (trim (NewCharacter st) = [])); [done|].
    destruct saved; [|done].
    unfold session_invariant. cbn. split_and!; try done.
    intros g Hg. rewrite upsert_glyph_list.
    case_decide; [by apply Hsub|]. apply elem_of_app. left. by apply Hsub.
  - assert (∀ st1, session_invariant st1 →
                   session_invariant (RecomputeCols measured st1)) as Hcols'.
    { intros st1 (?&?&?&?&?&?). destruct measured as [cols|]; [|done].
      unfold session_invariant. cbn. split_and!; try done. lia. }
    unfold onMount.
    destruct loaded as [userItems|]; [|by apply Hcols'].
    destruct (decide (0 < length userItems)%nat); [|by apply Hcols'].
    apply Hcols'. unfold session_invariant. cbn. split_and!; try done.
    intros g Hg. rewrite merge_user_items_eq, fmap_app, elem_of_app.
    left. by apply Hsub.
  - destruct measured as [cols|]; [|done].
    unfold session_invariant. cbn. split_and!; try done. lia.
  - unfold SelectedIndex_clamp_effect.
    destruct (Z.eqb_spec (Z.of_nat (length (FilteredResults st))) 0).
    { unfold session_invariant. cbn. by split_and!. }
    destruct (Z.geb_spec (SelectedIndex st)
                (Z.of_nat (length (FilteredResults st)))); [|done].
    unfold session_invariant. cbn. split_and!; try done. lia.
  - done.
  - done.
  - done.
  - done.
  - unfold session_invariant. cbn. by split_and!.
Qed.

(** X23. Throughout a session, that is after any sequence of key presses,
    clicks, saves, loads, resizes, edits and timer callbacks from the
    initial state of the script on any bundled catalog: the recency list
    has no repeated glyph and at most 8 entries, every glyph in it is a
    glyph of the catalog, the cursor is not negative, the column count is
    at least 1 and the copied index is at least -1. *)
Theorem session_invariant_holds (catalog : list KaomojiEntry)
    (actions : list Action) :
  session_invariant (run actions (initial_state catalog)).
Proof.
  unfold run. induction actions as [|a actions IH] using rev_ind.
  - unfold session_invariant. cbn. split_and!; try done; try lia.
    + constructor.
    + by intros g ?%elem_of_nil.
  - rewrite foldl_app. cbn [foldl]. by apply step_invariant.
Qed.

(** X24. A glyph in the recency list can always be copied again: at any
    point of a session, a click on a recents button whose clipboard write
    succeeds puts a catalog entry with that glyph at the front of the
    recency list, and records the index -1, which marks no card. *)
Theorem click_recent_records (catalog : list KaomojiEntry)
    (actions : list Action) (native_ok navigator_ok : bool) (i : nat)
    (recent : KaomojiEntry) :
  let st := run actions (initial_state catalog) in
  let st' := (click_recent native_ok navigator_ok i st).1 in
  RecentKaomojis st !! i = Some recent →
  native_ok = true ∨ navigator_ok = true →
  ∃ entry, entry ∈ KaomojiList st
           ∧ Character entry = Character recent
           ∧ head (RecentKaomojis st') = Some entry
           ∧ LastCopied st' = Character recent
           ∧ LastCopiedIndex st' = (-1)%Z.
Proof.
  intros st.
  assert (session_invariant st) as (_ & _ & Hsub & _).
  { subst st. unfold run.
    induction actions as [|a actions IH] using rev_ind.
    - unfold session_invariant. cbn. split_and!; try done; try lia.
      + constructor.
      + by intros g ?%elem_of_nil.
    - rewrite foldl_app. cbn [foldl]. by apply step_invariant. }
  intros st' Hrecent Hok. subst st'. unfold click_recent. rewrite Hrecent.
  assert (Character recent ∈ Character <$> KaomojiList st) as Hin.
  { apply Hsub, list_elem_of_fmap. exists recent. split; [done|].
    by eapply list_elem_of_lookup_2. }
  apply list_elem_of_fmap in Hin as (k & Hk & Hin).
  destruct (list_find_elem_of (λ k, Character k = Character recent)
              (KaomojiList st) k Hin (eq_sym Hk)) as [[j entry] Hfind].
  pose proof Hfind as (Hj & Hentry & _)%list_find_Some.
  exists entry. split; [by eapply list_elem_of_lookup_2|]. split; [done|].
  unfold CopyToClipboard, HandleCopySuccess. rewrite Hfind.
  destruct native_ok, navigator_ok; cbn -[js take filter];
    by destruct Hok.
Qed.

(** ** The loop ends, and tokens do not overlap *)

Lemma well_formed_token_length (m : RegExpMatch) :
  well_formed_token m → (5 ≤ length (fullMatch m))%nat.
Proof.
  intros (Hkind & Hne & _ & lead & -> & _). rewrite !length_app.
  assert (length (type m) = 3%nat) as ->
    by (by destruct Hkind as [-> | ->]).
  destruct (value m); [done|]. cbn. lia.
Qed.

Lemma search_from_advance (p : nat) (s : list N) m e :
  TokenRegex.search_from p s = Some (m, e) → (p + 5 ≤ e)%nat.
Proof.
  revert p. induction s as [|c s IH]; intros p; cbn [TokenRegex.search_from].
  - destruct (TokenRegex.match_here p []) as [m'|] eqn:Hm; [|done].
    intros [= -> <-].
    apply match_here_inv in Hm as [Hm%well_formed_token_length _]. lia.
  - destruct (TokenRegex.match_here p (c :: s)) as [m'|] eqn:Hm.
    + intros [= -> <-].
      apply match_here_inv in Hm as [Hm%well_formed_token_length _]. lia.
    + intros Hs%IH. lia.
Qed.

Lemma exec_all_count fuel (query : list N) (i : nat) :
  (i ≤ length query)%nat →
  (5 * length (exec_all fuel query i) + i ≤ length query)%nat.
Proof.
  revert i. induction fuel as [|fuel IH]; intros i Hi; cbn; [lia|].
  destruct (TokenRegex.exec query i) as [[m i']|] eqn:Hexec; [|cbn; lia].
  pose proof (exec_advances _ _ _ _ Hexec) as Hbound.
  unfold TokenRegex.exec in Hexec.
  destruct (decide (length query < i)%nat); [done|].
  apply search_from_advance in Hexec.
  specialize (IH i' ltac:(lia)). cbn [length]. lia.
Qed.

(** X7. The token loop of [FilteredResults] always comes to an end by
    [exec] returning [null]: giving the loop more iterations than the
    embedding allows changes nothing.  The tokens it finds do not overlap:
    five times their number is at most the length of the query. *)
Theorem token_loop_terminates (query : list N) (ls : LoopState)
    (extra : nat) :
  token_loop (S (length query) + extra) query 0 ls
  = parse_and_filter_from ls query
  ∧ (5 * length (query_tokens query) ≤ length query)%nat.
Proof.
  split.
  - unfold parse_and_filter_from. rewrite !token_loop_exec_all.
    f_equal. apply exec_all_enough_fuel; lia.
  - pose proof (exec_all_count (S (length query)) query 0 ltac:(lia)).
    unfold query_tokens. lia.
Qed.

(** ** Saving and then copying *)

(** X25. After an entry has been saved from the form, a copy of its glyph
    that succeeds puts the saved entry, with its new tags and category, at
    the front of the recency list, also when the catalog held an older
    entry with that glyph. *)
Theorem saved_entry_is_recorded (native_ok navigator_ok : bool) (index : Z)
    (st : AppState) :
  ¬ Forall (λ c, is_ws c = true) (NewCharacter st) →
  native_ok = true ∨ navigator_ok = true →
  let saved := (SubmitNewKaomoji (Resolved ()) st).1 in
  let copied :=
    (CopyToClipboard native_ok navigator_ok (Character (form_entry st))
                     index saved).1 in
  head (RecentKaomojis copied) = Some (form_entry st).
Proof.
  intros Hblank Hok saved copied. subst copied saved.
  unfold SubmitNewKaomoji.
  destruct (decide (trim (NewCharacter st) = [])) as [Htrim|_].
  { by apply trim_nil_iff in Htrim. }
  cbn [fst]. unfold CopyToClipboard, HandleCopySuccess.
  cbn [KaomojiList set_Saved].
  destruct (list_find_upsert (KaomojiList st) (form_entry st)) as [i ->].
  destruct native_ok, navigator_ok; cbn -[js take filter upsert form_entry];
    by destruct Hok.
Qed.

End Properties.

(** * Closed instances *)

(** Scenario 4 of the specification, on three results: the cursor was 7,
    the clamp puts it on 2. *)
Lemma SelectedIndex_clamp_witness :
  (0 ≤ SelectedIndex cursor_past_end)%Z
  ∧ SelectedIndex (@SelectedIndex_clamp_effect example_platform cursor_past_end)
    = 2%Z.
Proof.
  assert (0 ≤ SelectedIndex cursor_past_end)%Z as Hcur by (cbn; lia).
  split; [exact Hcur|].
  destruct (@SelectedIndex_clamp_spec example_platform cursor_past_end Hcur)
    as (_ & _ & _ & Hge & _).
  apply Hge; vm_compute; congruence.
Defined.

(** Saving [crying_edited] keeps three entries and replaces the second. *)
Lemma upsert_in_place_witness :
  Character crying_edited ∈ Character <$> three_entries
  ∧ ∃ i old,
      three_entries !! i = Some old
      ∧ Character old = Character crying_edited
      ∧ (∀ j k, three_entries !! j = Some k → (j < i)%nat →
                Character k ≠ Character crying_edited)
      ∧ upsert three_entries crying_edited !! i = Some crying_edited
      ∧ length (upsert three_entries crying_edited) = length three_entries
      ∧ ∀ j, j ≠ i →
             upsert three_entries crying_edited !! j = three_entries !! j.
Proof.
  assert (Character crying_edited ∈ Character <$> three_entries) as Hin.
  { apply list_elem_of_fmap. exists crying. split; [reflexivity|].
    unfold three_entries. rewrite !elem_of_cons. auto. }
  split; [exact Hin|].
  exact (proj1 (upsert_in_place three_entries crying_edited) Hin).
Defined.



(** Recording [crying] and then [crying_edited]: still one element. *)
Lemma AddToRecents_spec_witness :
  Character crying = Character crying_edited
  ∧ length (RecentKaomojis
              (AddToRecents crying_edited
                 (AddToRecents crying (initial_state three_entries))))
    = length (RecentKaomojis
                (AddToRecents crying (initial_state three_entries)))
  ∧ head (RecentKaomojis
            (AddToRecents crying_edited
               (AddToRecents crying (initial_state three_entries))))
    = Some crying_edited.
Proof.
  assert (Character crying = Character crying_edited) as Heq by reflexivity.
  split; [exact Heq|].
  destruct AddToRecents_spec as (_ & Htwice & _).
  exact (Htwice crying crying_edited (initial_state three_entries) Heq).
Defined.

(** Two loaded entries, one of them already bundled: one is appended. *)
Lemma merge_user_items_spec_witness :
  drop 2 (KaomojiList
            (onMount (Resolved [crying_edited; smooch]) None
                     (initial_state [happy; crying])).1)
  = [smooch]
  ∧ KaomojiList
      (onMount (Resolved [crying_edited; smooch]) None
               (initial_state [happy; crying])).1 !! 1%nat
    = Some crying.
Proof.
  destruct (merge_user_items_spec (initial_state [happy; crying])
              [crying_edited; smooch] None)
    as (_ & Happ & _ & Hkeep & _ & _).
  split.
  - etrans; [exact Happ|]. vm_compute. reflexivity.
  - rewrite Hkeep; [reflexivity|cbn; lia].
Defined.

(** ArrowRight on the last of three results goes to the first. *)
Lemma horizontal_move_wraps_witness :
  SelectedIndex
    (@HandleKeyDown example_platform true true (press "ArrowRight")
                    cursor_on_last).1 = 0%Z.
Proof.
  destruct (@horizontal_move_wraps example_platform true true
              (press "ArrowRight") cursor_on_last) as (_ & Hmove).
  { left. reflexivity. }
  destruct Hmove as (_ & Hright & _).
  - vm_compute. reflexivity.
  - reflexivity.
  - reflexivity.
  - vm_compute. split; [discriminate|reflexivity].
  - destruct Hright as (_ & Hwrap); [reflexivity|].
    apply Hwrap. reflexivity.
Defined.

(** No results and the modal closed: Escape leaves the query as typed. *)
Lemma HandleKeyDown_empty_results_witness :
  @FilteredResults strict_platform no_results = []
  ∧ (@HandleKeyDown strict_platform true true (press "Escape") no_results).1
    = no_results.
Proof.
  assert (@FilteredResults strict_platform no_results = []) as Hempty
    by (vm_compute; reflexivity).
  split; [exact Hempty|].
  destruct (@HandleKeyDown_empty_results strict_platform true true
              (press "Escape") no_results Hempty) as (_ & _ & Hclosed & _).
  apply Hclosed. reflexivity.
Defined.

(** No results and the modal open: Escape is a handled key and changes
    the state, it closes the modal. *)
Lemma Escape_closes_modal_on_empty_results :
  @FilteredResults strict_platform no_results_modal_open = []
  ∧ key (press "Escape") ∈ handledKeys
  ∧ (@HandleKeyDown strict_platform true true (press "Escape")
                    no_results_modal_open).1
    ≠ no_results_modal_open.
Proof.
  split_and!.
  - vm_compute. reflexivity.
  - unfold handledKeys, navKeys. cbn [app]. rewrite !elem_of_cons. auto 10.
  - vm_compute. intros [=].
Qed.

(** With a Fuse that finds nothing for [tag:kiss], the two-token query
    returns nothing although [smooch] satisfies both tokens. *)
Lemma FilteredResults_two_tokens_pruned_example :
  @FilteredResults strict_platform
    (set_SearchQuery (js "cat:Love tag:kiss") (initial_state three_entries))
  = []
  ∧ filter (λ k, @toLowerCase strict_platform (Category k) = js "love"
                 ∧ Exists (λ t, @toLowerCase strict_platform t = js "kiss")
                          (Tags k))
           three_entries
    = [smooch].
Proof. split; vm_compute; reflexivity. Qed.

(** * Closed instances of the further properties *)

(** Decide a closed hypothesis by computation. *)
Ltac by_compute :=
  match goal with
  | |- ?P => refine (@bool_decide_unpack P _ _); vm_compute; exact I
  end.

Lemma FilteredResults_blank_query_witness :
  Forall (λ c, is_ws c = true) (SearchQuery (with_query "   "))
  ∧ @FilteredResults strict_platform (with_query "   ") = three_entries.
Proof.
  assert (Forall (λ c, is_ws c = true) (SearchQuery (with_query "   ")))
    as Hblank by by_compute.
  split; [exact Hblank|].
  exact (@FilteredResults_blank_query strict_platform _ Hblank).
Defined.

Lemma FilteredResults_plain_query_witness :
  (58 ∉ SearchQuery (with_query " happy "))
  ∧ ¬ Forall (λ c, is_ws c = true) (SearchQuery (with_query " happy "))
  ∧ @FilteredResults example_platform (with_query " happy ")
    = @fuse_search example_platform three_entries (js "happy").
Proof.
  assert (58 ∉ SearchQuery (with_query " happy ")) as Hcolon by by_compute.
  assert (¬ Forall (λ c, is_ws c = true) (SearchQuery (with_query " happy ")))
    as Hblank by by_compute.
  split; [exact Hcolon|]. split; [exact Hblank|].
  exact (@FilteredResults_plain_query example_platform _ Hcolon Hblank).
Defined.

Lemma FilteredResults_filters_before_ranking_witness :
  query_tokens (trim (SearchQuery (with_query "tag:kiss sm"))) ≠ []
  ∧ (@FilteredResults strict_platform (with_query "tag:kiss sm")
     = filter (λ k, Forall (λ m, @token_holds strict_platform m k)
                           (query_tokens (trim (js "tag:kiss sm"))))
              three_entries
     ∨ ∃ residual,
         residual ≠ []
         ∧ @FilteredResults strict_platform (with_query "tag:kiss sm")
           = @fuse_search strict_platform
               (filter (λ k, Forall (λ m, @token_holds strict_platform m k)
                                    (query_tokens (trim (js "tag:kiss sm"))))
                       three_entries)
               residual).
Proof.
  assert (query_tokens (trim (SearchQuery (with_query "tag:kiss sm"))) ≠ [])
    as Htokens by (vm_compute; discriminate).
  split; [exact Htokens|].
  exact (proj2 (@FilteredResults_filters_before_ranking strict_platform
                  (with_query "tag:kiss sm") Htokens)).
Defined.

Lemma FilteredResults_single_token_witness :
  js "Love!" ≠ [] ∧ Forall (λ c, is_ws c = false) (js "Love!")
  ∧ @FilteredResults strict_platform
      (set_SearchQuery (js "cat:" ++ js "Love!") (initial_state three_entries))
    = [smooch].
Proof.
  assert (js "Love!" ≠ []) as Hne by discriminate.
  assert (Forall (λ c, is_ws c = false) (js "Love!")) as Hws by by_compute.
  split; [exact Hne|]. split; [exact Hws|].
  rewrite (proj1 (@FilteredResults_single_token strict_platform (js "Love!")
                    (initial_state three_entries) Hne Hws)).
  vm_compute. reflexivity.
Defined.

Lemma token_value_case_insensitive_witness :
  @FilteredResults strict_platform
    (set_SearchQuery (js "cat:" ++ js "JOY") (initial_state three_entries))
  = @FilteredResults strict_platform
      (set_SearchQuery (js "cat:" ++ js "joy") (initial_state three_entries)).
Proof.
  refine (proj1 (@token_value_case_insensitive strict_platform
                   (js "JOY") (js "joy") (initial_state three_entries)
                   _ _ _ _ _ _ _)).
  - discriminate.
  - by_compute.
  - discriminate.
  - by_compute.
  - by_compute.
  - by_compute.
  - vm_compute. reflexivity.
Defined.

Lemma CopyToClipboard_touches_only_feedback_witness :
  KaomojiList
    (CopyToClipboard false false (Character crying) 1
                     (initial_state three_entries)).1 = three_entries
  ∧ head (CopyToClipboard false false (Character crying) 1
                          (initial_state three_entries)).2
    = Some (InvokeCopyToClipboard (Character crying)).
Proof.
  destruct (@CopyToClipboard_touches_only_feedback example_platform
              false false (Character crying) 1 (initial_state three_entries))
    as ((Hcat & _) & _ & Hhead & _).
  split; [exact Hcat|exact Hhead].
Defined.

Lemma SelectedIndex_clamp_settles_witness :
  (0 ≤ SelectedIndex cursor_on_second
   < Z.of_nat (length (@FilteredResults example_platform cursor_on_second)))%Z
  ∧ @SelectedIndex_clamp_effect example_platform cursor_on_second
    = cursor_on_second.
Proof.
  assert (0 ≤ SelectedIndex cursor_on_second
          < Z.of_nat (length (@FilteredResults example_platform
                                cursor_on_second)))%Z
    as Hrange by (vm_compute; split; [discriminate|reflexivity]).
  split; [exact Hrange|].
  exact (proj2 (@SelectedIndex_clamp_settles example_platform
                  cursor_on_second) Hrange).
Defined.

(** Three results in three columns: ArrowDown from the second result stops
    at the last one. *)
Lemma vertical_move_clamped_witness :
  SelectedIndex
    (@HandleKeyDown example_platform true true (press "ArrowDown")
                    cursor_on_second).1 = 2%Z.
Proof.
  pose proof (@vertical_move_clamped example_platform true true
                (press "ArrowDown") cursor_on_second) as Hmove.
  cbv zeta in Hmove.
  destruct Hmove as (_ & _ & Hdown & _).
  - left. reflexivity.
  - reflexivity.
  - reflexivity.
  - vm_compute. split; [discriminate|reflexivity].
  - vm_compute. discriminate.
  - destruct Hdown as [Hdown _]; [reflexivity|].
    rewrite Hdown. vm_compute. reflexivity.
Defined.

Lemma horizontal_moves_cancel_witness :
  (@HandleKeyDown example_platform true true (press "ArrowLeft")
     (@HandleKeyDown example_platform true true (press "ArrowRight")
        cursor_on_last).1).1 = cursor_on_last.
Proof.
  refine (proj1 (@horizontal_moves_cancel example_platform true true
                   (press "ArrowRight") (press "ArrowLeft") cursor_on_last
                   _ _ _ _ _ _)).
  - reflexivity.
  - reflexivity.
  - reflexivity.
  - reflexivity.
  - reflexivity.
  - vm_compute. split; [discriminate|reflexivity].
Defined.

Lemma HandleKeyDown_while_typing_witness :
  isTyping (press_in_input "ArrowLeft") = true
  ∧ key (press_in_input "ArrowLeft") ∈ navKeys
  ∧ @HandleKeyDown example_platform true true (press_in_input "ArrowLeft")
      cursor_on_second = (cursor_on_second, []).
Proof.
  assert (key (press_in_input "ArrowLeft") ∈ navKeys) as Hnav by by_compute.
  split; [reflexivity|]. split; [exact Hnav|].
  exact (proj1 (@HandleKeyDown_while_typing example_platform true true
                  (press_in_input "ArrowLeft") cursor_on_second
                  eq_refl eq_refl) Hnav).
Defined.

Lemma Enter_copies_selected_witness :
  index_at (@FilteredResults example_platform cursor_on_second)
           (SelectedIndex cursor_on_second) = Some crying
  ∧ LastCopied (@HandleKeyDown example_platform true true (press "Enter")
                  cursor_on_second).1 = Character crying.
Proof.
  assert (index_at (@FilteredResults example_platform cursor_on_second)
                   (SelectedIndex cursor_on_second) = Some crying)
    as Hitem by reflexivity.
  split; [exact Hitem|].
  pose proof (@Enter_copies_selected example_platform true true
                (press "Enter") cursor_on_second) as Henter.
  cbv zeta in Henter.
  destruct Henter as [Hon _].
  - reflexivity.
  - reflexivity.
  - vm_compute. discriminate.
  - destruct (Hon crying Hitem) as (_ & _ & _ & _ & Hsuccess).
    destruct Hsuccess as [Hlast _]; [left; reflexivity|exact Hlast].
Defined.

Lemma Escape_clears_query_witness :
  @FilteredResults example_platform (with_query "happy") ≠ []
  ∧ @FilteredResults example_platform
      (@HandleKeyDown example_platform true true (press "Escape")
         (with_query "happy")).1 = three_entries.
Proof.
  assert (@FilteredResults example_platform (with_query "happy") ≠ [])
    as Hresults by (vm_compute; discriminate).
  split; [exact Hresults|].
  exact (proj2 (@Escape_clears_query example_platform true true
                  (press "Escape") (with_query "happy")
                  eq_refl eq_refl Hresults)).
Defined.

Lemma HandleKeyDown_frame_witness :
  key (press "ArrowRight") ≠ js "Enter"
  ∧ RecentKaomojis
      (@HandleKeyDown example_platform true true (press "ArrowRight")
         eight_recents).1 = RecentKaomojis eight_recents.
Proof.
  assert (key (press "ArrowRight") ≠ js "Enter") as Hkey by discriminate.
  split; [exact Hkey|].
  destruct (@HandleKeyDown_frame example_platform true true
              (press "ArrowRight") eight_recents) as (_ & Henter & _).
  exact (proj1 (Henter Hkey)).
Defined.

(** A click on the second card while both clipboard writes fail: the
    cursor is on the second card all the same. *)
Lemma click_card_selects_witness :
  @FilteredResults example_platform (initial_state three_entries) !! 1%nat
  = Some crying
  ∧ SelectedIndex
      (@click_card example_platform false false 1
                   (initial_state three_entries)).1 = 1%Z.
Proof.
  assert (@FilteredResults example_platform (initial_state three_entries)
          !! 1%nat = Some crying) as Hitem by reflexivity.
  split; [exact Hitem|].
  exact (proj1 (@click_card_selects example_platform false false 1
                  (initial_state three_entries) crying Hitem)).
Defined.

Lemma upsert_keeps_glyphs_witness :
  NoDup (Character <$> three_entries)
  ∧ NoDup (Character <$> upsert three_entries crying_edited).
Proof.
  assert (NoDup (Character <$> three_entries)) as Hnd by by_compute.
  split; [exact Hnd|].
  destruct (upsert_keeps_glyphs three_entries crying_edited)
    as (_ & _ & _ & Hkeep).
  exact (Hkeep Hnd).
Defined.

Lemma merge_user_items_idempotent_witness :
  NoDup (Character <$> three_entries)
  ∧ NoDup (Character <$> [crying_edited; glyph_entry 1])
  ∧ NoDup (Character
             <$> merge_user_items three_entries [crying_edited; glyph_entry 1]).
Proof.
  assert (NoDup (Character <$> three_entries)) as Hcat by by_compute.
  assert (NoDup (Character <$> [crying_edited; glyph_entry 1]))
    as Huser by by_compute.
  split; [exact Hcat|]. split; [exact Huser|].
  destruct (merge_user_items_idempotent three_entries
              [crying_edited; glyph_entry 1]) as (_ & _ & Hnd).
  exact (Hnd Hcat Huser).
Defined.

Lemma form_entry_clean_witness :
  Forall (λ c, is_ws c = true ∨ c = 44) (NewTags (set_Form (js "x") (js " , ,")
                                                   (js "Joy") form_filled))
  ∧ Tags (form_entry (set_Form (js "x") (js " , ,") (js "Joy") form_filled))
    = [].
Proof.
  assert (Forall (λ c, is_ws c = true ∨ c = 44)
                 (NewTags (set_Form (js "x") (js " , ,") (js "Joy")
                                    form_filled))) as Hblank.
  { cbn. repeat constructor; (by left) || (by right). }
  split; [exact Hblank|].
  destruct (form_entry_clean (set_Form (js "x") (js " , ,") (js "Joy")
                                       form_filled)) as (_ & _ & _ & Hnone).
  exact (Hnone Hblank).
Defined.

Lemma SubmitNewKaomoji_outcomes_witness :
  ¬ Forall (λ c, is_ws c = true) (NewCharacter form_filled)
  ∧ head (SubmitNewKaomoji Rejected form_filled).2
    = Some (InvokeSaveKaomoji (form_entry form_filled))
  ∧ ShowAddModal (SubmitNewKaomoji (Resolved ()) form_filled).1 = false.
Proof.
  assert (¬ Forall (λ c, is_ws c = true) (NewCharacter form_filled))
    as Hglyph by by_compute.
  split; [exact Hglyph|].
  destruct (SubmitNewKaomoji_outcomes Rejected form_filled) as [_ Hsave].
  destruct (Hsave Hglyph) as (Hhead & _ & _ & _ & Hmodal & _).
  split; [exact Hhead|exact Hmodal].
Defined.

(** A ninth glyph pushes the oldest of eight out. *)
Lemma AddToRecents_edges_witness :
  (Character happy ∉ Character <$> RecentKaomojis eight_recents)
  ∧ RecentKaomojis (AddToRecents happy eight_recents)
    = happy :: (glyph_entry <$> [1; 2; 3; 4; 5; 6; 7]).
Proof.
  assert (Character happy ∉ Character <$> RecentKaomojis eight_recents)
    as Hnew by by_compute.
  split; [exact Hnew|].
  destruct (AddToRecents_edges happy eight_recents) as (_ & Hevict & _).
  exact (Hevict Hnew).
Defined.

Lemma click_recent_records_witness :
  RecentKaomojis (@run example_platform two_copies
                    (initial_state three_entries)) !! 1%nat = Some happy
  ∧ ∃ entry,
      entry ∈ KaomojiList (@run example_platform two_copies
                             (initial_state three_entries))
      ∧ Character entry = Character happy
      ∧ head (RecentKaomojis
                (click_recent true false 1
                   (@run example_platform two_copies
                      (initial_state three_entries))).1) = Some entry
      ∧ LastCopied
          (click_recent true false 1
             (@run example_platform two_copies
                (initial_state three_entries))).1 = Character happy
      ∧ LastCopiedIndex
          (click_recent true false 1
             (@run example_platform two_copies
                (initial_state three_entries))).1 = (-1)%Z.
Proof.
  assert (RecentKaomojis (@run example_platform two_copies
                            (initial_state three_entries)) !! 1%nat
          = Some happy) as Hrecent by reflexivity.
  split; [exact Hrecent|].
  exact (@click_recent_records example_platform three_entries two_copies
           true false 1 happy Hrecent (or_introl eq_refl)).
Defined.

Lemma saved_entry_is_recorded_witness :
  ¬ Forall (λ c, is_ws c = true) (NewCharacter form_filled)
  ∧ head (RecentKaomojis
            (CopyToClipboard false true (Character (form_entry form_filled)) 3
               (SubmitNewKaomoji (Resolved ()) form_filled).1).1)
    = Some (form_entry form_filled).
Proof.
  assert (¬ Forall (λ c, is_ws c = true) (NewCharacter form_filled))
    as Hglyph by by_compute.
  split; [exact Hglyph|].
  exact (saved_entry_is_recorded false true 3 form_filled Hglyph
           (or_intror eq_refl)).
Defined.
